(** * Gerrit Monitor: the badge service worker

    A shallow embedding of the service worker of the extension (the
    polling, caching and aggregation core, the badge derivation, the
    alarm re-scheduling and the message proxy) together with the
    functions of [browser.js] that do not touch the page: the badge, the
    fetching of a URL, the tabs, the options, the local storage and the
    permissions.

    Conventions.
    - Time stamps ([new Date()]) are integers, in milliseconds.
    - [fetchCache], a JavaScript object used as a dictionary whose keys
      are host names, is the [gmap string _] of its own properties;
      reading [fetchCache[host]] also finds what the object inherits
      from [Object.prototype], and the embedding says so.
    - What is thrown, or rejects a promise, is an object with a
      [message]: an instance of [Error] or of [FetchError].
    - Arrays that are only ever [push]ed to are lists, newest last.
    - Every effect on the outside world (a call of the Gerrit client, of
      [chrome.alarms], of the badge, of the notification module, of the
      console, of a [reply] callback) is appended to a trace, so that the
      order of the effects of a call can be read off.
    - An [async] function is run up to its first [await] when it is
      called; each later resumption is an event of a schedule chosen by
      the environment. *)

From Stdlib Require Import ZArith Ascii.
From stdpp Require Import gmap strings list fin_maps pretty.

Open Scope Z_scope.
Open Scope string_scope.
Open Scope list_scope.

(** ** JavaScript preliminaries *)

(** Values that are thrown, or that reject a promise: instances of the
    built-in [Error] (with their [name], such as ["Error"] or
    ["TypeError"]) and instances of [FetchError] of [browser.js], a
    plain class with the fields [message] and [is_login_error]. *)
Inductive JsError : Type :=
  | ErrorObject (name message : string)
  | FetchError (message : string) (is_login_error : bool).

(** [error.message]. *)
Definition message (error : JsError) : string :=
  match error with
  | ErrorObject _ m => m
  | FetchError m _ => m
  end.

(** [new Error(message)]. *)
Definition new_Error (m : string) : JsError := ErrorObject "Error" m.

(** [String(error)]: [Error.prototype.toString] for the instances of
    [Error]; [FetchError] does not extend [Error] and defines no
    [toString], so [Object.prototype.toString] applies. *)
Definition String_error (error : JsError) : string :=
  match error with
  | ErrorObject name m =>
      if decide (name = "") then m
      else if decide (m = "") then name
      else name +:+ ": " +:+ m
  | FetchError _ _ => "[object Object]"
  end.

(** The names of the properties of [Object.prototype], which every
    object written [{}] inherits: eleven methods and the accessor
    [__proto__].  Reading one of them from an object that has no
    property of its own by that name gives the inherited member, which
    is truthy, is not [undefined], and cannot be iterated over. *)
Definition Object_prototype : list string :=
  ["constructor"; "__defineGetter__"; "__defineSetter__"; "hasOwnProperty";
   "__lookupGetter__"; "__lookupSetter__"; "isPrototypeOf"; "propertyIsEnumerable";
   "toString"; "valueOf"; "__proto__"; "toLocaleString"].

Definition inherited (name : string) : bool := bool_decide (name ∈ Object_prototype).

(** Whether the text [part] occurs in the text [whole]. *)
Fixpoint starts_with (part whole : string) : bool :=
  match part, whole with
  | "", _ => true
  | String.String a part, String.String b whole =>
      bool_decide (a = b) && starts_with part whole
  | _, "" => false
  end.

Fixpoint contains (part whole : string) : bool :=
  starts_with part whole ||
  match whole with
  | "" => false
  | String.String _ whole => contains part whole
  end.

(** The result of reading a property that may hold an object, hold
    [null], or be missing. *)
Inductive Property (A : Type) : Type :=
  | Undefined
  | Null
  | Object (a : A).
Arguments Undefined {A}.
Arguments Null {A}.
Arguments Object {A} a.

(** A promise, observed once the events of a schedule have happened. *)
Inductive Promise (A : Type) : Type :=
  | Fulfilled (value : A)
  | Rejected (reason : JsError)
  | Pending.
Arguments Fulfilled {A} value.
Arguments Rejected {A} reason.
Arguments Pending {A}.

(** The result of a call: a value, or an exception. *)
Inductive Completion (A : Type) : Type :=
  | Normal (value : A)
  | Throw (error : JsError).
Arguments Normal {A} value.
Arguments Throw {A} error.

(** *** Values and JSON

    The values a handler of the message proxy may resolve to.  A finite
    number is represented by an integer.  An object is given by its
    enumerable properties, in their order, and by its method [toJSON]
    when it has one, as the property of that name.  A function comes
    with how its call ends when [JSON.stringify] calls it as the method
    [toJSON] of the object that holds it: with a value, or with an
    exception. *)
Inductive JsNumber : Type :=
  | Finite (z : Z)
  | NaN
  | Infinity (negative : bool).

#[local] Unset Elimination Schemes.

Inductive JsValue : Type :=
  | JsUndefined
  | JsFunction (name : string) (returns : Completion JsValue)
  | JsNull
  | JsBoolean (b : bool)
  | JsNumeric (n : JsNumber)
  | JsString (s : string)
  | JsArray (elements : list JsValue)
  | JsObject (properties : list (string * JsValue)).

(** A JSON text, by its structure. *)
Inductive Json : Type :=
  | JNull
  | JBoolean (b : bool)
  | JNumber (z : Z)
  | JString (s : string)
  | JArray (elements : list Json)
  | JObject (members : list (string * Json)).

#[local] Set Elimination Schemes.

(** How the serialisation of a value ends: with a text, with
    [undefined] ([None]), or with the exception of a method [toJSON]. *)
Definition Serialized : Type := Completion (option Json).

Fixpoint first_thrown {A} (l : list (Completion A)) : option JsError :=
  match l with
  | [] => None
  | Throw error :: _ => Some error
  | Normal _ :: l => first_thrown l
  end.

(** In an array a value without JSON form becomes [null]; in an object
    the property is left out. *)
Definition array_member (c : Serialized) : option Json :=
  match c with
  | Normal j => Some (default JNull j)
  | Throw _ => None
  end.

Definition object_member (kc : string * Serialized) : option (string * Json) :=
  match kc.2 with
  | Normal (Some j) => Some (kc.1, j)
  | _ => None
  end.

Definition array_text (elements : list Serialized) : Serialized :=
  match first_thrown elements with
  | Some error => Throw error
  | None => Normal (Some (JArray (omap array_member elements)))
  end.

Definition object_text (members : list (string * Serialized)) : Serialized :=
  match first_thrown members.*2 with
  | Some error => Throw error
  | None => Normal (Some (JObject (omap object_member members)))
  end.

(** The serialisation of one value by [JSON.stringify].  When the value
    is an object whose property [toJSON] holds a function, that function
    is called and what it returns is serialised in place of the object,
    without looking for a method [toJSON] again: [called] tells that this
    has been done.  The elements of an array and the values of the
    properties of an object are serialised in turn. *)
Fixpoint serialize (called : bool) (value : JsValue) {struct value} : Serialized :=
  match value with
  | JsUndefined => Normal None
  | JsFunction _ _ => Normal None
  | JsNull => Normal (Some JNull)
  | JsBoolean b => Normal (Some (JBoolean b))
  | JsNumeric (Finite z) => Normal (Some (JNumber z))
  | JsNumeric _ => Normal (Some JNull)
  | JsString s => Normal (Some (JString s))
  | JsArray elements => array_text (map (serialize false) elements)
  | JsObject properties =>
      let members :=
        object_text (map (fun kv => (kv.1, serialize false kv.2)) properties) in
      if called then members
      else
        match (fix toJSON (properties : list (string * JsValue)) : option Serialized :=
                 match properties with
                 | [] => None
                 | (key, held) :: properties =>
                     if decide (key = "toJSON") then
                       match held with
                       | JsFunction _ (Normal result) => Some (serialize true result)
                       | JsFunction _ (Throw error) => Some (Throw error)
                       | _ => None
                       end
                     else toJSON properties
                 end) properties with
        | Some text => text
        | None => members
        end
  end.

(** [JSON.stringify(value)]. *)
Definition JSON_stringify (value : JsValue) : Serialized := serialize false value.

(** [JSON.parse(text)] for the text of a JSON value. *)
Fixpoint JSON_parse (json : Json) : JsValue :=
  match json with
  | JNull => JsNull
  | JBoolean b => JsBoolean b
  | JNumber z => JsNumeric (Finite z)
  | JString s => JsString s
  | JArray elements => JsArray (map JSON_parse elements)
  | JObject members => JsObject (map (fun kj => (kj.1, JSON_parse kj.2)) members)
  end.

(** [JSON.parse(JSON.stringify(value))]; [JSON.parse(undefined)] throws
    a [SyntaxError]. *)
Definition JSON_roundtrip (value : JsValue) : Completion JsValue :=
  match JSON_stringify value with
  | Normal (Some json) => Normal (JSON_parse json)
  | Normal None => Throw (ErrorObject "SyntaxError" "undefined is not valid JSON")
  | Throw error => Throw error
  end.

(** Plain data: records, ordered lists, strings, finite numbers,
    booleans and [null], nested. *)
Fixpoint plain_data (value : JsValue) : bool :=
  match value with
  | JsUndefined | JsFunction _ _ => false
  | JsNull | JsBoolean _ | JsString _ => true
  | JsNumeric (Finite _) => true
  | JsNumeric _ => false
  | JsArray elements => forallb plain_data elements
  | JsObject properties => forallb (fun kv => plain_data kv.2) properties
  end.

(** The method [toJSON] of an object with these properties, by how its
    call ends. *)
Fixpoint toJSON_method (properties : list (string * JsValue)) : option (Completion JsValue) :=
  match properties with
  | [] => None
  | (key, held) :: properties =>
      if decide (key = "toJSON") then
        match held with
        | JsFunction _ returns => Some returns
        | _ => None
        end
      else toJSON_method properties
  end.

(** What the message proxy hands to [reply]. *)
Inductive Response : Type :=
  | ValueResponse (value : JsValue)
  | ErrorResponse (error : string).

(** A value that [JSON.stringify] turns into [undefined]. *)
Definition without_JSON (value : JsValue) : bool :=
  match value with
  | JsUndefined | JsFunction _ _ => true
  | _ => false
  end.

(** ** browser.js *)
Module Browser.

(** The argument of [updateBadge]: an object on which each of the four
    properties may be present or not. *)
Record BadgeData : Type := {
  text : option string;
  color : option string;
  title : option string;
  icon : option (list (string * string));
}.

(** Calls of [chrome.action]. *)
Inductive ActionCall : Type :=
  | setIcon (path : list (string * string))
  | setBadgeText (text : string)
  | setTitle (title : string)
  | setBadgeBackgroundColor (color : string).

Definition when {A B} (o : option A) (f : A -> B) : list B :=
  match o with
  | Some a => [f a]
  | None => []
  end.

(** [updateBadge(data)]: the calls it makes, in order. *)
Definition updateBadge (data : BadgeData) : list ActionCall :=
  when (icon data) setIcon ++
  when (text data) setBadgeText ++
  when (title data) setTitle ++
  when (color data) setBadgeBackgroundColor.

(** *** FetchError.wrap *)

(** A [FetchError] as [JSON.stringify] sees it: the constructor sets
    [message], then [is_login_error]. *)
Definition FetchError_value (message : string) (is_login_error : bool) : JsValue :=
  JsObject [("message", JsString message); ("is_login_error", JsBoolean is_login_error)].

(** The [FetchError] that [wrap] builds: its two fields hold whatever
    the argument held. *)
Record WrappedFetchError : Type := {
  wrapped_message : JsValue;
  wrapped_is_login_error : JsValue;
}.

Fixpoint own_property (name : string) (properties : list (string * JsValue)) : JsValue :=
  match properties with
  | [] => JsUndefined
  | (key, value) :: properties =>
      if decide (key = name) then value else own_property name properties
  end.

(** [json.message] and [json.is_login_error]: reading a property of
    [undefined] or [null] is a [TypeError]; the other values that are
    no objects have neither property. *)
Definition read (json : JsValue) (name : string) : Completion JsValue :=
  match json with
  | JsUndefined | JsNull =>
      Throw (ErrorObject "TypeError"
               ("Cannot read properties of undefined (reading '" +:+ name +:+ "')"))
  | JsObject properties => Normal (own_property name properties)
  | _ => Normal JsUndefined
  end.

(** [FetchError.wrap(json)]. *)
Definition wrap (json : JsValue) : Completion WrappedFetchError :=
  match read json "message" with
  | Throw error => Throw error
  | Normal message =>
      match read json "is_login_error" with
      | Throw error => Throw error
      | Normal is_login_error =>
          Normal {| wrapped_message := message;
                    wrapped_is_login_error := is_login_error |}
      end
  end.

(** *** fetchUrl *)

(** [encodeURIComponent], on a string given by its UTF-8 bytes: the
    letters, the digits and [- _ . ! ~ * ' ( )] stand for themselves,
    every other byte is written [%XX]. *)
Definition unreserved (c : Ascii.ascii) : bool :=
  let n := Ascii.N_of_ascii c in
  ((65 <=? n) && (n <=? 90) || (97 <=? n) && (n <=? 122) || (48 <=? n) && (n <=? 57)
   || bool_decide (n ∈ [45; 95; 46; 33; 126; 42; 39; 40; 41]))%N.

Definition hex_digit (n : N) : Ascii.ascii :=
  Ascii.ascii_of_N (if (n <? 10)%N then 48 + n else 55 + n)%N.

Definition encode_byte (c : Ascii.ascii) : string :=
  if unreserved c then String.String c ""
  else String.String "%"%char
         (String.String (hex_digit (Ascii.N_of_ascii c / 16))
            (String.String (hex_digit (Ascii.N_of_ascii c mod 16)) "")).

Fixpoint encodeURIComponent (s : string) : string :=
  match s with
  | "" => ""
  | String.String c s => encode_byte c +:+ encodeURIComponent s
  end.

(** The function given to [params.forEach]; the accumulator holds the
    variables [path] and [separator]. *)
Definition add_param (acc : string * string) (param : string * string) : string * string :=
  let key := encodeURIComponent param.1 in
  let val := encodeURIComponent param.2 in
  (acc.1 +:+ acc.2 +:+ key +:+ "=" +:+ val, "&").

(** The URL that [fetchUrl] requests; [params] is [None] when the
    argument is missing. *)
Definition request_url (path : string) (params : option (list (string * string))) : string :=
  match params with
  | None => path
  | Some params => (foldl add_param (path, "?") params).1
  end.

(** How the promise of [fetch] settles, and with it that of
    [response.text()]. *)
Inductive FetchAnswer : Type :=
  | NetworkFailure (error : JsError)
  | Response (status : Z) (body : string + JsError).

(** [response.ok]. *)
Definition ok (status : Z) : bool := bool_decide (200 <= status <= 299).

Section Fetch.

Variable LOGIN_PROMPT : string.
Variable fetch : string -> list (string * string) -> FetchAnswer.

(** The [try] block of [fetchUrl]. *)
Definition fetchUrl_try (url : string) (headers : list (string * string))
    : Completion string :=
  match fetch url headers with
  | NetworkFailure error => Throw error
  | Response status body =>
      if ok status then
        match body with
        | inl content => Normal content
        | inr error => Throw error
        end
      else if bool_decide (400 <= status) && bool_decide (status <= 403) then
        Throw (FetchError ("HTTP " +:+ pretty status +:+ LOGIN_PROMPT) true)
      else Throw (FetchError ("HTTP " +:+ pretty status) false)
  end.

(** [fetchUrl(path, params, headers)]; [error instanceof FetchError]
    tells the errors thrown in the [try] block from the others. *)
Definition fetchUrl (path : string) (params : option (list (string * string)))
    (headers : option (list (string * string))) : Promise string :=
  match fetchUrl_try (request_url path params) (default [] headers) with
  | Normal content => Fulfilled content
  | Throw (FetchError message is_login_error) =>
      Rejected (FetchError message is_login_error)
  | Throw (ErrorObject _ _) =>
      Rejected (FetchError ("Unknown error." +:+ LOGIN_PROMPT) true)
  end.

End Fetch.

(** The text that [request_url] appends to the path. *)
Fixpoint query (separator : string) (params : list (string * string)) : string :=
  match params with
  | [] => ""
  | param :: params =>
      separator +:+ encodeURIComponent param.1 +:+ "=" +:+ encodeURIComponent param.2
      +:+ query "&" params
  end.

(** How often the character [c] occurs in [s]. *)
Fixpoint occurrences (c : Ascii.ascii) (s : string) : nat :=
  match s with
  | "" => 0%nat
  | String.String c' s => ((if decide (c' = c) then 1 else 0) + occurrences c s)%nat
  end.

(** *** openUrl *)

(** A tab of the window that was focused last: [tab.url] is missing
    when the extension may not see it. *)
Record Tab : Type := {
  tab_id : Z;
  tab_url : option string;
  tab_active : bool;
}.

(** What [openUrl] calls in the end. *)
Inductive TabCall : Type :=
  | tabs_create (url : string)
  | window_close
  | tabs_update_active (id : Z).

Section OpenUrl.

(** [in_popup]: [window] is defined and has [close].  [with_usp url]:
    the text of [new URL(url)] once the search parameter [usp] is set to
    ['gerrit-monitor'], or the exception of [new URL]. *)
Variable in_popup : bool.
Variable with_usp : string -> Completion string.

Definition shows (urlString : string) (reuse_if_possible : bool) (tab : Tab) : Prop :=
  tab_url tab = Some urlString /\ reuse_if_possible = true.

#[local] Instance shows_dec urlString reuse_if_possible tab :
  Decision (shows urlString reuse_if_possible tab).
Proof. unfold shows. apply _. Defined.

(** The callback that [openUrl] gives to
    [chrome.windows.getLastFocused], for the tabs of that window. *)
Definition openUrl (tabs : list Tab) (urlString : string) (reuse_if_possible : bool)
    : Completion (list TabCall) :=
  let candidates := filter (shows urlString reuse_if_possible) tabs in
  match candidates with
  | [] =>
      match with_usp urlString with
      | Normal url => Normal [tabs_create url]
      | Throw error => Throw error
      end
  | first :: _ =>
      match filter (fun tab => tab_active tab = true) candidates with
      | _ :: _ => Normal (if in_popup then [window_close] else [])
      | [] => Normal [tabs_update_active (tab_id first)]
      end
  end.

End OpenUrl.

(** *** Options and local storage *)

Section Storage.

(** The values kept in [chrome.storage], and [config.DEFAULT_OPTIONS];
    an object of options is the map of its own properties, which is
    what [utils.Map.wrap] lets [saveOptions] read with [has], [get] and
    [forEach]. *)
Context {V : Type}.
Variable DEFAULT_OPTIONS : gmap string V.

(** [chrome.storage.sync.get(defaults, callback)]: the stored values of
    the keys of [defaults], and the values of [defaults] for its other
    keys. *)
Definition storage_get (defaults storage : gmap string V) : gmap string V :=
  filter (fun entry => is_Some (defaults !! entry.1)) storage ∪ defaults.

(** [chrome.storage.sync.set(items, callback)]. *)
Definition storage_set (items storage : gmap string V) : gmap string V :=
  items ∪ storage.

(** [loadOptions()]: what its promise resolves to. *)
Definition loadOptions (sync : gmap string V) : gmap string V :=
  storage_get DEFAULT_OPTIONS sync.

(** The object [options_with_defaults] that [saveOptions] builds. *)
Definition options_with_defaults (options : gmap string V) : gmap string V :=
  map_imap (fun key value =>
              Some (match options !! key with
                    | Some given => given
                    | None => value
                    end))
    DEFAULT_OPTIONS.

(** How [saveOptions] ends: its promise resolves to the object it has
    stored, or it rejects with [chrome.runtime.lastError]. *)
Inductive Saved : Type :=
  | SaveResolved (options : gmap string V) (sync : gmap string V)
  | SaveRejected (lastError : string).

(** [saveOptions(options)]; [lastError] is [chrome.runtime.lastError]
    in the callback of [set]. *)
Definition saveOptions (options sync : gmap string V) (lastError : option string) : Saved :=
  match lastError with
  | Some error => SaveRejected error
  | None =>
      SaveResolved (options_with_defaults options)
        (storage_set (options_with_defaults options) sync)
  end.

End Storage.

(** [chrome.storage.local] keeps JSON values, by key.  What the promise
    of [getLocalStorage] resolves to is a stored value, the member that
    the object [result] inherits from [Object.prototype], or
    [defaultVal]. *)
Inductive LocalValue (A : Type) : Type :=
  | stored_value (value : Json)
  | inherited_member (name : string)
  | default_value (defaultVal : A).
Arguments stored_value {A} value.
Arguments inherited_member {A} name.
Arguments default_value {A} defaultVal.

(** [getLocalStorage(key, defaultVal)]: the object [result] that
    [chrome.storage.local.get([key], ...)] hands over has the property
    [key] when a value is stored under it, and a stored value is never
    [undefined]; [result[key]] is otherwise what [result] inherits, and
    [undefined] only when it inherits nothing by that name. *)
Definition getLocalStorage {A} (key : string) (defaultVal : A) (local : gmap string Json)
    : LocalValue A :=
  match local !! key with
  | Some value => stored_value value
  | None => if inherited key then inherited_member key else default_value defaultVal
  end.

(** [setLocalStorage(key, val)], for a value with a JSON form or, with
    [None], for [undefined].  The assignment [result[key] = val] on the
    object [{}] makes a property unless [key] is ['__proto__'], which
    sets the prototype of [result] instead; and
    [chrome.storage.local.set] stores the properties of [result] that
    hold a value with a JSON form, skipping one that holds [undefined]. *)
Definition setLocalStorage (key : string) (val : option Json) (local : gmap string Json)
    : gmap string Json :=
  if decide (key = "__proto__") then local
  else
    match val with
    | Some value => <[key := value]> local
    | None => local
    end.

(** *** requestPermissions *)

(** How the user and the browser answer [chrome.permissions.request]:
    with [chrome.runtime.lastError] set, or with [granted]. *)
Inductive RequestAnswer : Type :=
  | request_failed (lastError : string)
  | request_answered (granted : bool).

Inductive PermissionCall : Type :=
  | permissions_getAll
  | permissions_request (permissions : list string)
  | permissions_remove (permissions : list string)
  | console_warn (text : string).

(** [requestPermissions(origins, notifications)] when the permissions
    [granted] are those that [chrome.permissions.getAll] reports to
    [getGrantedPermissions]: how its promise settles, the permissions
    afterwards, and the calls it makes, of which the first is always
    that of [chrome.permissions.getAll].  A granted request adds the
    permission; [removed] tells whether the browser has removed it. *)
Definition requestPermissions (origins : list string) (notifications : bool)
    (granted : gset string) (answer : RequestAnswer) (removed : bool)
    : Promise unit * gset string * list PermissionCall :=
  let notifications_granted := bool_decide ("notifications" ∈ granted) in
  if notifications && negb notifications_granted then
    match answer with
    | request_failed lastError =>
        (Rejected (new_Error "notifications permission not granted"), granted,
         [permissions_getAll; permissions_request ["notifications"];
          console_warn ("Notification permission request failed: " +:+ lastError)])
    | request_answered false =>
        (Rejected (new_Error "notifications permission not granted"), granted,
         [permissions_getAll; permissions_request ["notifications"]])
    | request_answered true =>
        (Fulfilled (), {["notifications"]} ∪ granted,
         [permissions_getAll; permissions_request ["notifications"]])
    end
  else if negb notifications && notifications_granted then
    (Fulfilled (), if removed then granted ∖ {["notifications"]} else granted,
     [permissions_getAll; permissions_remove ["notifications"]])
  else (Fulfilled (), granted, [permissions_getAll]).

End Browser.

(** ** config.js and messages.js

    Neither file is part of the sources at hand; the constants the
    service worker reads from them are the fields of two records. *)

Record Config : Type := {
  NO_HOST_ALLOWED : string;
  REVIEW_CACHE_DURATION_IN_MILLISECONDS : Z;
  REFRESH_DELAY_IN_MINUTES : Z;
}.

(** An entry of [messages.BADGE_DATA]. *)
Record BadgeTemplate : Type := {
  template_icon : list (string * string);
  template_color : string;
  formatTitle : nat -> string;
}.

Record Messages : Type := {
  SECTION_ORDERING : list string;
  BADGE_DATA : string -> Property BadgeTemplate;
  DEFAULT_BADGE_DATA : Browser.BadgeData;
}.

(** An instance of the options page, as [onAlarm] uses it. *)
Record Instance : Type := {
  instance_name : string;
  host : string;
}.

(** ** The service worker *)
Module Badge.

Section Worker.

(** The modules [gerrit.js] and [notifications.js] are collaborators.
    [fetchAccount] and [fetchReviews] give how the promise returned by
    the client for a host settles: with a value, or with the error it
    rejects with. *)
Context {Account Reviews Item Options : Type}.
Variable config : Config.
Variable messages : Messages.
Variable fetchAccount : string -> Account + JsError.
Variable fetchReviews : string -> Account -> Reviews + JsError.
Variable getCategoryMap : list Reviews -> gmap string (list Item).
Variable fetchAllowedInstances : Options -> list Instance + JsError.
Variable notify : list Reviews -> list (string * JsError) -> option JsError.
Variable toValue : list Reviews -> list (string * JsError) -> JsValue.

(** The second component of a cache entry: [{reviews: reviews}] or
    [{error: error}].  An error is an object, hence truthy: the test
    [cached.error] tells the two apart. *)
Inductive Cached : Type :=
  | CachedReviews (reviews : Reviews)
  | CachedError (error : JsError).

(** The object returned by [fetchCls]; [results] is the array wrapped
    into [gerrit.SearchResults]. *)
Record Wrapper : Type := {
  results : list Reviews;
  errors : list (string * JsError);
}.

(** Effects, as they appear in the trace. *)
Inductive Event : Type :=
  | FetchAccountCall (host : string)
  | FetchReviewsCall (host : string)
  | AlarmsClear (name : string)
  | AlarmsCreate (name : string) (delayInMinutes : Z)
  | UpdateBadge (data : Browser.BadgeData)
  | Notify (results : list Reviews) (errors : list (string * JsError))
  | ConsoleError (error : JsError)
  | Reply (response : Response).

(** The state of the worker and of the browser around it: the module
    variable [fetchCache], the alarms of [chrome.alarms] (by name, with
    their delay), the options in [chrome.storage.sync], and the trace. *)
Record State : Type := {
  fetchCache : gmap string (Z * Cached);
  alarms : gmap string Z;
  options : Options;
  trace : list Event;
}.

Definition emit (e : Event) (st : State) : State :=
  {| fetchCache := fetchCache st; alarms := alarms st;
     options := options st; trace := trace st ++ [e] |}.

Definition set_fetchCache (host : string) (entry : Z * Cached) (st : State) : State :=
  {| fetchCache := <[host := entry]> (fetchCache st); alarms := alarms st;
     options := options st; trace := trace st |}.

(** [chrome.alarms.clear(name)] and [chrome.alarms.create(name, info)];
    creating an alarm replaces the alarm of the same name. *)
Definition alarms_clear (name : string) (st : State) : State :=
  emit (AlarmsClear name)
    {| fetchCache := fetchCache st; alarms := delete name (alarms st);
       options := options st; trace := trace st |}.

Definition alarms_create (name : string) (delay : Z) (st : State) : State :=
  emit (AlarmsCreate name delay)
    {| fetchCache := fetchCache st; alarms := <[name := delay]> (alarms st);
       options := options st; trace := trace st |}.

(** *** fetchCls *)

(** Where the callback given to [hosts.map] stands for one host: it has
    ended, by returning or by throwing, or it is suspended at one of its
    two [await]s. *)
Inductive Stage : Type :=
  | Done
  | AwaitAccount
  | AwaitReviews (account : Account).

(** One call of [fetchCls] in progress: the world, the two local arrays
    and the callbacks, in the order of [hosts]. *)
Record Pass : Type := {
  world : State;
  pass_results : list Reviews;
  pass_errors : list (string * JsError);
  tasks : list (string * Stage);
}.

(** [now - timestamp < config.REVIEW_CACHE_DURATION_IN_MILLISECONDS]. *)
Definition fresh (now timestamp : Z) : bool :=
  bool_decide (now - timestamp < REVIEW_CACHE_DURATION_IN_MILLISECONDS config).

(** What [fetchCache[host]] gives: the entry that the cache holds for
    the host, a member inherited from [Object.prototype], or
    [undefined]. *)
Inductive Member : Type :=
  | own_entry (entry : Z * Cached)
  | prototype_member
  | no_member.

Definition get_fetchCache (cache : gmap string (Z * Cached)) (host : string) : Member :=
  match cache !! host with
  | Some entry => own_entry entry
  | None => if inherited host then prototype_member else no_member
  end.

(** The callback for [host], from its call to its first [await], or to
    its end: it returns when the cache answers, and it throws a
    [TypeError] when [fetchCache[host]] is an inherited member, which
    is truthy and which the destructuring into [timestamp] and [cached]
    cannot iterate over.  This happens before the [try] block, so that
    the callback then ends without a call of the client, without a
    cache entry and without an element of [results] or [errors];
    [Promise.allSettled] takes the rejected promise for settled. *)
Definition start_host (now : Z) (p : Pass) (host : string) : Pass :=
  let begin_fetch :=
    {| world := emit (FetchAccountCall host) (world p);
       pass_results := pass_results p; pass_errors := pass_errors p;
       tasks := tasks p ++ [(host, AwaitAccount)] |} in
  match get_fetchCache (fetchCache (world p)) host with
  | own_entry (timestamp, cached) =>
      if fresh now timestamp then
        match cached with
        | CachedError error =>
            {| world := world p; pass_results := pass_results p;
               pass_errors := pass_errors p ++ [(host, error)];
               tasks := tasks p ++ [(host, Done)] |}
        | CachedReviews reviews =>
            {| world := world p; pass_results := pass_results p ++ [reviews];
               pass_errors := pass_errors p;
               tasks := tasks p ++ [(host, Done)] |}
        end
      else begin_fetch
  | prototype_member =>
      {| world := world p; pass_results := pass_results p;
         pass_errors := pass_errors p;
         tasks := tasks p ++ [(host, Done)] |}
  | no_member => begin_fetch
  end.

(** The [catch] block, run at time [t]. *)
Definition catch_error (i : nat) (host : string) (t : Z) (error : JsError) (p : Pass) : Pass :=
  {| world := set_fetchCache host (t, CachedError error) (world p);
     pass_results := pass_results p;
     pass_errors := pass_errors p ++ [(host, error)];
     tasks := <[i := (host, Done)]> (tasks p) |}.

(** The [i]-th callback is resumed at time [t], the promise it awaits
    having settled. *)
Definition resume (p : Pass) (ev : nat * Z) : Pass :=
  let '(i, t) := ev in
  match tasks p !! i with
  | Some (host, AwaitAccount) =>
      match fetchAccount host with
      | inl account =>
          {| world := emit (FetchReviewsCall host) (world p);
             pass_results := pass_results p; pass_errors := pass_errors p;
             tasks := <[i := (host, AwaitReviews account)]> (tasks p) |}
      | inr error => catch_error i host t error p
      end
  | Some (host, AwaitReviews account) =>
      match fetchReviews host account with
      | inl reviews =>
          {| world := set_fetchCache host (t, CachedReviews reviews) (world p);
             pass_results := pass_results p ++ [reviews];
             pass_errors := pass_errors p;
             tasks := <[i := (host, Done)]> (tasks p) |}
      | inr error => catch_error i host t error p
      end
  | _ => p
  end.

Definition settled (task : string * Stage) : bool :=
  match task.2 with
  | Done => true
  | _ => false
  end.

(** [hosts.map(async (host) => ...)], then the events of [schedule]. *)
Definition run_pass (hosts : list string) (now : Z) (schedule : list (nat * Z))
    (st : State) : Pass :=
  foldl resume
    (foldl (start_host now)
       {| world := st; pass_results := []; pass_errors := []; tasks := [] |}
       hosts)
    schedule.

(** [fetchCls(hosts)], called at time [now]: how its promise stands after
    the events of [schedule], and the state then.  [Promise.allSettled]
    resolves when every callback has ended. *)
Definition fetchCls (hosts : list string) (now : Z) (schedule : list (nat * Z))
    (st : State) : Promise Wrapper * State :=
  if decide (length hosts = 0%nat) then
    (Rejected (new_Error (NO_HOST_ALLOWED config)), st)
  else
    let p := run_pass hosts now schedule st in
    if forallb settled (tasks p) then
      (Fulfilled {| results := pass_results p; errors := pass_errors p |}, world p)
    else (Pending, world p).

(** *** update *)

(** The badge shown when at least one host failed. *)
Definition error_badge (error : JsError) : Browser.BadgeData :=
  {| Browser.text := Some "!";
     Browser.color := Some "red";
     Browser.title := Some ("Error: " +:+ message error);
     Browser.icon :=
       Some [("24", "img/ic_assignment_late_black_24dp_1x.png");
             ("48", "img/ic_assignment_late_black_24dp_2x.png")] |}.

(** The badge of a category with [count] items. *)
Definition category_badge (data : BadgeTemplate) (count : nat) : Browser.BadgeData :=
  {| Browser.text := Some (pretty count);
     Browser.icon := Some (template_icon data);
     Browser.title := Some (formatTitle data count);
     Browser.color := Some (template_color data) |}.

(** The function given to [messages.SECTION_ORDERING.forEach]; the
    accumulator is the variable [updateData] ([None] for [null]), or the
    exception that has ended the loop.  Reading [data.icon] when
    [messages.BADGE_DATA] has no property [attention] is a [TypeError]:
    [undefined === null] is false. *)
Definition visit (categories : gmap string (list Item))
    (updateData : Completion (option Browser.BadgeData)) (attention : string)
    : Completion (option Browser.BadgeData) :=
  match updateData with
  | Throw error => Throw error
  | Normal (Some data) => Normal (Some data)
  | Normal None =>
      match categories !! attention with
      | None => Normal None
      | Some items =>
          match BADGE_DATA messages attention with
          | Null => Normal None
          | Undefined =>
              Throw (ErrorObject "TypeError"
                       "Cannot read properties of undefined (reading 'icon')")
          | Object data => Normal (Some (category_badge data (length items)))
          end
      end
  end.

(** The value of [updateData] when [browser.updateBadge] is reached. *)
Definition updateData (wrapper : Wrapper) : Completion Browser.BadgeData :=
  match errors wrapper with
  | first :: _ => Normal (error_badge first.2)
  | [] =>
      match foldl (visit (getCategoryMap (results wrapper))) (Normal None)
              (SECTION_ORDERING messages) with
      | Throw error => Throw error
      | Normal (Some data) => Normal data
      | Normal None => Normal (DEFAULT_BADGE_DATA messages)
      end
  end.

Definition update (wrapper : Wrapper) (st : State) : Completion unit * State :=
  let st := alarms_clear "auto-refresh" st in
  let st := alarms_create "auto-refresh" (REFRESH_DELAY_IN_MINUTES config) st in
  match updateData wrapper with
  | Throw error => (Throw error, st)
  | Normal data => (Normal (), emit (UpdateBadge data) st)
  end.

(** *** fetchAndUpdate and onAlarm *)

Definition fetchAndUpdate (hosts : list string) (now : Z) (schedule : list (nat * Z))
    (st : State) : Promise Wrapper * State :=
  match fetchCls hosts now schedule st with
  | (Fulfilled wrapper, st) =>
      match update wrapper st with
      | (Throw error, st) => (Rejected error, st)
      | (Normal _, st) =>
          let st := emit (Notify (results wrapper) (errors wrapper)) st in
          match notify (results wrapper) (errors wrapper) with
          | Some error => (Rejected error, st)
          | None => (Fulfilled wrapper, st)
          end
      end
  | (Rejected error, st) => (Rejected error, st)
  | (Pending, st) => (Pending, st)
  end.

(** [browser.loadOptions()] resolves to the stored options. *)
Definition onAlarm (now : Z) (schedule : list (nat * Z)) (st : State)
    : Promise unit * State :=
  match fetchAllowedInstances (options st) with
  | inr error => (Fulfilled (), emit (ConsoleError error) st)
  | inl instances =>
      let hosts := map host instances in
      if decide (0 < length hosts)%nat then
        match fetchAndUpdate hosts now schedule st with
        | (Fulfilled _, st) => (Fulfilled (), st)
        | (Rejected error, st) => (Fulfilled (), emit (ConsoleError error) st)
        | (Pending, st) => (Pending, st)
        end
      else (Fulfilled (), st)
  end.

(** *** The listeners registered at the top level *)

(** The listener of [chrome.alarms.onAlarm]; it does not wait for
    [onAlarm]. *)
Definition onAlarm_listener (name : string) (now : Z) (schedule : list (nat * Z))
    (st : State) : State :=
  if decide (name = "auto-refresh") then (onAlarm now schedule st).2 else st.

(** The browser fires the alarm [name]: an alarm created with a delay
    and no period is gone once it has fired. *)
Definition alarm_fires (name : string) (now : Z) (schedule : list (nat * Z))
    (st : State) : State :=
  match alarms st !! name with
  | None => st
  | Some _ =>
      onAlarm_listener name now schedule
        {| fetchCache := fetchCache st; alarms := delete name (alarms st);
           options := options st; trace := trace st |}
  end.

(** The listener of [chrome.runtime.onInstalled]. *)
Definition onInstalled_listener (now : Z) (schedule : list (nat * Z)) (st : State) : State :=
  (onAlarm now schedule
     (alarms_create "auto-refresh" (REFRESH_DELAY_IN_MINUTES config) st)).2.

(** The listener of [chrome.runtime.onStartup]; the callback given to
    [chrome.alarms.get] is taken to run before [onAlarm] is resumed. *)
Definition onStartup_listener (now : Z) (schedule : list (nat * Z)) (st : State) : State :=
  let st :=
    match alarms st !! "auto-refresh" with
    | None => alarms_create "auto-refresh" (REFRESH_DELAY_IN_MINUTES config) st
    | Some _ => st
    end in
  (onAlarm now schedule st).2.

(** *** newMessageProxy and RequestProxy *)

(** An asynchronous operation of a handler: from its arguments, how the
    promise it returns settles. *)
Definition Operation (Arg : Type) : Type :=
  list Arg -> State -> Promise JsValue * State.

(** The listener returned by [newMessageProxy(handler)], applied to the
    message [request], an array of a command and its arguments.
    [handler[request[0]]] is [None] when the handler has no operation of
    that name; [.apply] on it is then a [TypeError], thrown by the
    listener.  The two callbacks given to [then] run after the listener
    has returned, so [hasResponded] is still false when it is read.  An
    exception in the first callback rejects the promise that [then]
    returns, which nothing observes. *)
Definition newMessageProxy {Arg : Type} (handler : string -> option (Operation Arg))
    (request : string * list Arg) (st : State) : Completion bool * State :=
  match handler request.1 with
  | None =>
      (Throw (ErrorObject "TypeError"
                "Cannot read properties of undefined (reading 'apply')"), st)
  | Some operation =>
      match operation request.2 st with
      | (Fulfilled value, st) =>
          match JSON_roundtrip value with
          | Normal canonical => (Normal true, emit (Reply (ValueResponse canonical)) st)
          | Throw _ => (Normal true, st)
          end
      | (Rejected error, st) =>
          (Normal true, emit (Reply (ErrorResponse (String_error error))) st)
      | (Pending, st) => (Normal true, st)
      end
  end.

(** [RequestProxy.getSearchResults(hosts)]. *)
Definition getSearchResults (hosts : list string) (now : Z) (schedule : list (nat * Z))
    (st : State) : Promise Wrapper * State :=
  fetchAndUpdate hosts now schedule st.

(** [new RequestProxy()] as a handler, for a message that arrives at
    time [now].  The arguments of a message are arrays of host names;
    without an argument [hosts] is [undefined] and reading
    [hosts.length] rejects the promise of [fetchCls]. *)
Definition RequestProxy (now : Z) (schedule : list (nat * Z))
    : string -> option (Operation (list string)) :=
  fun command =>
    if decide (command = "getSearchResults") then
      Some (fun args st =>
              match args with
              | hosts :: _ =>
                  match getSearchResults hosts now schedule st with
                  | (Fulfilled wrapper, st) =>
                      (Fulfilled (toValue (results wrapper) (errors wrapper)), st)
                  | (Rejected error, st) => (Rejected error, st)
                  | (Pending, st) => (Pending, st)
                  end
              | [] =>
                  (Rejected (ErrorObject "TypeError"
                     "Cannot read properties of undefined (reading 'length')"), st)
              end)
    else None.

(** ** Notions used to state the properties *)

(** What one attempt to fetch [host] yields: the outcome of the [try]
    block, as it is written to the cache. *)
Definition fetched (host : string) : Cached :=
  match fetchAccount host with
  | inl account =>
      match fetchReviews host account with
      | inl reviews => CachedReviews reviews
      | inr error => CachedError error
      end
  | inr error => CachedError error
  end.

(** The entry of [host] in [cache] when it is fresh at [now]. *)
Definition reusable (cache : gmap string (Z * Cached)) (now : Z) (host : string)
    : option Cached :=
  match cache !! host with
  | Some (timestamp, cached) => if fresh now timestamp then Some cached else None
  | None => None
  end.

(** The callback of [host] throws in a pass on [cache]: the cache has
    no entry for the host, whose name is that of a property of
    [Object.prototype]. *)
Definition thrown (cache : gmap string (Z * Cached)) (host : string) : bool :=
  match get_fetchCache cache host with
  | prototype_member => true
  | _ => false
  end.

(** [host] is fetched in a pass started at [now] on [cache]: it has no
    fresh entry, and its callback does not throw. *)
Definition refetched (cache : gmap string (Z * Cached)) (now : Z) (host : string) : Prop :=
  reusable cache now host = None /\ thrown cache host = false.

(** The outcome of [host] in a pass started at [now] on [cache], when
    its callback does not throw. *)
Definition outcome (cache : gmap string (Z * Cached)) (now : Z) (host : string) : Cached :=
  default (fetched host) (reusable cache now host).

Definition reviews_of (c : Cached) : list Reviews :=
  match c with
  | CachedReviews reviews => [reviews]
  | CachedError _ => []
  end.

Definition error_of (host : string) (c : Cached) : list (string * JsError) :=
  match c with
  | CachedReviews _ => []
  | CachedError error => [(host, error)]
  end.

(** The calls of the client that one attempt for [host] makes. *)
Definition attempt (host : string) : list Event :=
  FetchAccountCall host ::
  match fetchAccount host with
  | inl _ => [FetchReviewsCall host]
  | inr _ => []
  end.

(** What [host] contributes to [results] and to [errors]: its outcome,
    or nothing when its callback throws. *)
Definition host_results (cache : gmap string (Z * Cached)) (now : Z) (host : string)
    : list Reviews :=
  if thrown cache host then [] else reviews_of (outcome cache now host).

Definition host_errors (cache : gmap string (Z * Cached)) (now : Z) (host : string)
    : list (string * JsError) :=
  if thrown cache host then [] else error_of host (outcome cache now host).

(** The calls of the client for [host] in a pass: none when the cache
    answers or the callback throws, those of one attempt otherwise. *)
Definition calls (cache : gmap string (Z * Cached)) (now : Z) (host : string) : list Event :=
  match reusable cache now host with
  | Some _ => []
  | None => if thrown cache host then [] else attempt host
  end.

(** The host a call of the client is for. *)
Definition call_host (e : Event) : option string :=
  match e with
  | FetchAccountCall host | FetchReviewsCall host => Some host
  | _ => None
  end.

(** The calls of the client for [host] in a trace. *)
Definition network (host : string) (tr : list Event) : list Event :=
  filter (fun e => call_host e = Some host) tr.

(** Every callback is resumed at least twice by the schedule. *)
Definition fair (n : nat) (schedule : list (nat * Z)) : bool :=
  forallb (fun i => bool_decide (2 <= length (filter (fun ev => ev.1 = i) schedule))%nat)
    (seq 0 n).

(** The alarms are those of the worker: at most ['auto-refresh']. *)
Definition own_alarms (st : State) : Prop :=
  forall name, is_Some (alarms st !! name) -> name = "auto-refresh".

(** *** A pass in terms of its callbacks

    For a pass started at [now] on the cache [cache0]. *)
Section PassNotions.

Variable cache0 : gmap string (Z * Cached).
Variable now : Z.

(** What a callback has pushed and called so far. *)
Definition pushed_results (task : string * Stage) : list Reviews :=
  match task.2 with
  | Done => host_results cache0 now task.1
  | _ => []
  end.

Definition pushed_errors (task : string * Stage) : list (string * JsError) :=
  match task.2 with
  | Done => host_errors cache0 now task.1
  | _ => []
  end.

Definition emitted (task : string * Stage) : list Event :=
  match task.2 with
  | Done => calls cache0 now task.1
  | AwaitAccount => [FetchAccountCall task.1]
  | AwaitReviews _ => [FetchAccountCall task.1; FetchReviewsCall task.1]
  end.

Definition valid (task : string * Stage) : Prop :=
  match task.2 with
  | Done => True
  | AwaitAccount => refetched cache0 now task.1
  | AwaitReviews account =>
      refetched cache0 now task.1 /\ fetchAccount task.1 = inl account
  end.

Definition written (times : list Z) (cache : gmap string (Z * Cached)) (h : string)
    : Prop :=
  refetched cache0 now h /\
  exists t, t ∈ times /\ cache !! h = Some (t, fetched h).

Record Inv (st0 : State) (times : list Z) (p : Pass) : Prop := {
  inv_valid : Forall valid (tasks p);
  inv_results : pass_results p ≡ₚ tasks p ≫= pushed_results;
  inv_errors : pass_errors p ≡ₚ tasks p ≫= pushed_errors;
  inv_trace : exists new,
      trace (world p) = trace st0 ++ new /\ new ≡ₚ tasks p ≫= emitted;
  inv_cache : forall h,
      fetchCache (world p) !! h = cache0 !! h \/ written times (fetchCache (world p)) h;
  inv_written : forall i h,
      tasks p !! i = Some (h, Done) -> refetched cache0 now h ->
      written times (fetchCache (world p)) h;
  inv_alarms : alarms (world p) = alarms st0;
  inv_options : options (world p) = options st0;
}.

End PassNotions.

(** A callback that returns after its attempt: the three ways in which
    [resume] ends a callback are this one. *)
Definition settle (i : nat) (host : string) (t : Z) (p : Pass) : Pass :=
  {| world := set_fetchCache host (t, fetched host) (world p);
     pass_results := pass_results p ++ reviews_of (fetched host);
     pass_errors := pass_errors p ++ error_of host (fetched host);
     tasks := <[i := (host, Done)]> (tasks p) |}.

(** How far the [i]-th callback is: 0 at its first [await], 1 at its
    second, 2 when it has returned. *)
Definition rank (p : Pass) (i : nat) : nat :=
  match tasks p !! i with
  | Some (_, AwaitAccount) => 0%nat
  | Some (_, AwaitReviews _) => 1%nat
  | _ => 2%nat
  end.

(** The events [new] are calls of the client, for hosts of the call
    that are fetched. *)
Definition calls_only (cache0 : gmap string (Z * Cached)) (now : Z)
    (hosts : list string) (new : list Event) : Prop :=
  Forall (fun e => exists h, call_host e = Some h /\ h ∈ hosts /\
                             refetched cache0 now h) new.

(** What follows the re-arming in the trace of [fetchAndUpdate]. *)
Definition after_rearming (wrapper : Wrapper) : list Event :=
  match updateData wrapper with
  | Throw _ => []
  | Normal data => [UpdateBadge data; Notify (results wrapper) (errors wrapper)]
  end.

(** *** The badge, from the specification *)

(** Modelled from the spec: [gerrit.js], where [getCategoryMap] is
    defined, is not among the sources.  The data model says of a
    category map that a key is present only if its list of items is not
    empty. *)
Definition CategoryMap_wf (categories : gmap string (list Item)) : Prop :=
  forall label items, categories !! label = Some items -> items <> [].

(** Modelled from the spec: [messages.js] is not among the sources.
    The ordered list of category labels comes with the descriptor
    templates of the labels: every label of [SECTION_ORDERING] has an
    entry in [BADGE_DATA], a template or [null]. *)
Definition Messages_wf : Prop :=
  forall label,
    label ∈ SECTION_ORDERING messages -> BADGE_DATA messages label <> Undefined.

(** The first element of [l] on which [f] is defined. *)
Fixpoint first_match {A B} (f : A -> option B) (l : list A) : option B :=
  match l with
  | [] => None
  | x :: l =>
      match f x with
      | Some b => Some b
      | None => first_match f l
      end
  end.

(** The status derivation in the words of the specification, for a
    wrapper without errors: the first label of the ordering that is
    present in the category map with non-empty contents and has a
    configured template gives the badge, with the item count as text,
    the title formatted from the count, and the color and icon of the
    template; without such a label the badge is the default one. *)
Definition category_match (categories : gmap string (list Item)) (label : string)
    : option Browser.BadgeData :=
  match categories !! label, BADGE_DATA messages label with
  | Some (item :: items), Object data =>
      let count := length (item :: items) in
      Some {| Browser.text := Some (pretty count);
              Browser.title := Some (formatTitle data count);
              Browser.color := Some (template_color data);
              Browser.icon := Some (template_icon data) |}
  | _, _ => None
  end.

Definition derive (categories : gmap string (list Item)) : Browser.BadgeData :=
  default (DEFAULT_BADGE_DATA messages)
    (first_match (category_match categories) (SECTION_ORDERING messages)).

(** What [update] tests of a label: that it is a key of the category
    map and that [messages.BADGE_DATA] holds a template for it. *)
Definition present_match (categories : gmap string (list Item)) (label : string)
    : option Browser.BadgeData :=
  match categories !! label, BADGE_DATA messages label with
  | Some items, Object data => Some (category_badge data (length items))
  | _, _ => None
  end.

(** A label that ends the loop of [update] with a [TypeError]: a key of
    the category map without a property in [messages.BADGE_DATA]. *)
Definition breaks_badge (categories : gmap string (list Item)) (label : string) : Prop :=
  is_Some (categories !! label) /\ BADGE_DATA messages label = Undefined.

(** A label that the loop of [update] passes over. *)
Definition passed_over (categories : gmap string (list Item)) (label : string) : Prop :=
  categories !! label = None \/ BADGE_DATA messages label = Null.

(** ** The invariant of a pass *)

Section PassInvariant.

Variable cache0 : gmap string (Z * Cached).
Variable now : Z.

Lemma bind_insert_perm {A B} (f : A -> list B) (l : list A) (i : nat) (x y : A)
    (extra : list B) :
  l !! i = Some x -> f y ≡ₚ f x ++ extra ->
  <[i := y]> l ≫= f ≡ₚ (l ≫= f) ++ extra.
Proof.
  revert i. induction l as [|a l IH]; intros [|i] Hi Hf; simplify_eq/=.
  - rewrite Hf. rewrite <- !(assoc_L (++)). f_equiv. apply Permutation_app_comm.
  - rewrite (IH i Hi Hf). by rewrite (assoc_L (++)).
Qed.

Lemma bind_snoc {A B} (f : A -> list B) (l : list A) (x : A) :
  (l ++ [x]) ≫= f = (l ≫= f) ++ f x.
Proof. rewrite bind_app. simpl. by rewrite (right_id_L [] (++)). Qed.

Lemma written_mono times t cache h :
  written cache0 now times cache h -> written cache0 now (times ++ [t]) cache h.
Proof. intros [? (t' & ? & ?)]. split; [done|]. exists t'. set_solver. Qed.

(** The three ways in which [fetchCache[host]] is read. *)
Lemma get_fetchCache_cases cache host :
  (exists timestamp cached,
      cache !! host = Some (timestamp, cached) /\
      get_fetchCache cache host = own_entry (timestamp, cached) /\
      thrown cache host = false /\
      reusable cache now host = if fresh now timestamp then Some cached else None) \/
  (cache !! host = None /\ get_fetchCache cache host = prototype_member /\
   thrown cache host = true /\ reusable cache now host = None) \/
  (cache !! host = None /\ get_fetchCache cache host = no_member /\
   thrown cache host = false /\ reusable cache now host = None).
Proof.
  unfold thrown, get_fetchCache, reusable.
  destruct (cache !! host) as [[timestamp cached]|]; [left; by eexists _, _|].
  destruct (inherited host); [right; by left|right; by right].
Qed.

(** The callbacks are started on the cache as it stands at the call. *)
Lemma start_host_inv st0 p host :
  Inv cache0 now st0 [] p /\ fetchCache (world p) = cache0 ->
  Inv cache0 now st0 [] (start_host now p host) /\
  fetchCache (world (start_host now p host)) = cache0 /\
  (tasks (start_host now p host)).*1 = (tasks p).*1 ++ [host].
Proof.
  intros [[Hv Hr He (new & Ht & Hn) Hc Hw Ha Ho] Hc1].
  unfold start_host. rewrite Hc1.
  assert (Hfetch :
    let q := {| world := emit (FetchAccountCall host) (world p);
                pass_results := pass_results p; pass_errors := pass_errors p;
                tasks := tasks p ++ [(host, AwaitAccount)] |} in
    refetched cache0 now host ->
    Inv cache0 now st0 [] q /\ fetchCache (world q) = cache0 /\
    (tasks q).*1 = (tasks p).*1 ++ [host]).
  { intros q Hnone. subst q.
    split; [|split; [done|simpl; by rewrite fmap_app]].
    split; simpl; rewrite ?bind_snoc; try done.
    - apply Forall_app; split; [done|]. by apply Forall_singleton.
    - unfold pushed_results at 2; simpl. by rewrite (right_id_L [] (++)).
    - unfold pushed_errors at 2; simpl. by rewrite (right_id_L [] (++)).
    - exists (new ++ [FetchAccountCall host]). rewrite Ht, (assoc_L (++)).
      split; [done|]. unfold emitted at 2; simpl. by f_equiv.
    - intros i h Hi. apply lookup_app_Some in Hi as [Hi|[_ Hi]]; [by eapply Hw|].
      by destruct (i - _)%nat; simplify_eq/=. }
  assert (Hend : forall results errors,
    host_results cache0 now host = results -> host_errors cache0 now host = errors ->
    calls cache0 now host = [] -> ~ refetched cache0 now host ->
    forall q, world q = world p -> pass_results q = pass_results p ++ results ->
      pass_errors q = pass_errors p ++ errors -> tasks q = tasks p ++ [(host, Done)] ->
    Inv cache0 now st0 [] q /\ fetchCache (world q) = cache0 /\
    (tasks q).*1 = (tasks p).*1 ++ [host]).
  { intros results errors Hres Herr Hcalls Hnot q Hq1 Hq2 Hq3 Hq4.
    split; [|split; [by rewrite Hq1|rewrite Hq4; by rewrite fmap_app]].
    split; rewrite ?Hq1, ?Hq2, ?Hq3, ?Hq4, ?bind_snoc; try done.
    - apply Forall_app; split; [done|]. by apply Forall_singleton.
    - unfold pushed_results at 2; simpl. rewrite Hres. by f_equiv.
    - unfold pushed_errors at 2; simpl. rewrite Herr. by f_equiv.
    - exists new. split; [done|]. unfold emitted at 2; simpl.
      by rewrite Hcalls, (right_id_L [] (++)).
    - intros i h Hi Hnone. apply lookup_app_Some in Hi as [Hi|[_ Hi]]; [by eapply Hw|].
      destruct (i - _)%nat; simplify_eq/=. by destruct Hnot. }
  destruct (get_fetchCache_cases cache0 host)
    as [(timestamp & cached & Hhost & -> & Hthrown & Hre)|[(Hhost & -> & Hthrown & Hre)|
        (Hhost & -> & Hthrown & Hre)]].
  - destruct (fresh now timestamp) eqn:Hfresh; [|by apply Hfetch].
    assert (Hout : outcome cache0 now host = cached) by (unfold outcome; by rewrite Hre).
    assert (Hcalls : calls cache0 now host = []) by (unfold calls; by rewrite Hre).
    assert (Hnot : ~ refetched cache0 now host) by (intros [? _]; congruence).
    unfold host_results, host_errors in Hend. rewrite Hthrown, Hout in Hend.
    destruct cached as [reviews|error];
      eapply Hend; try done; simpl; by rewrite ?(right_id_L [] (++)).
  - assert (Hcalls : calls cache0 now host = [])
      by (unfold calls; by rewrite Hre, Hthrown).
    assert (Hnot : ~ refetched cache0 now host) by (intros [_ ?]; congruence).
    unfold host_results, host_errors in Hend. rewrite Hthrown in Hend.
    eapply Hend; try done; simpl; by rewrite ?(right_id_L [] (++)).
  - by apply Hfetch.
Qed.

Lemma written_insert_ne times t cache h host entry :
  h <> host -> written cache0 now times cache h ->
  written cache0 now (times ++ [t]) (<[host := entry]> cache) h.
Proof.
  intros Hne Hw. apply written_mono with (t := t) in Hw.
  unfold written in *. by rewrite lookup_insert_ne.
Qed.

Lemma Inv_mono st0 times t p :
  Inv cache0 now st0 times p -> Inv cache0 now st0 (times ++ [t]) p.
Proof.
  intros [Hv Hr He Ht Hc Hw Ha Ho]. split; try done.
  - intros h. destruct (Hc h); [by left|right; by apply written_mono].
  - intros i h Hi Hn. by apply written_mono, (Hw i).
Qed.

Lemma settle_inv st0 times p i host stage t :
  tasks p !! i = Some (host, stage) ->
  refetched cache0 now host ->
  attempt host ≡ₚ emitted cache0 now (host, stage) ->
  stage <> Done ->
  Inv cache0 now st0 times p -> Inv cache0 now st0 (times ++ [t]) (settle i host t p).
Proof.
  intros Hi Hnone Hem Hstage [Hv Hr He (new & Ht & Hn) Hc Hw Ha Ho].
  pose proof Hnone as [Hre Hthrown].
  assert (Hout : outcome cache0 now host = fetched host)
    by (unfold outcome; by rewrite Hre).
  assert (Hnew : written cache0 now (times ++ [t])
                   (<[host := (t, fetched host)]> (fetchCache (world p))) host).
  { split; [done|]. exists t. rewrite lookup_insert_eq. set_solver. }
  split; simpl.
  - apply Forall_insert; [done|]. by unfold valid.
  - rewrite Hr. symmetry. apply bind_insert_perm with (x := (host, stage)); [done|].
    unfold pushed_results, host_results; simpl. rewrite Hthrown, Hout. by destruct stage.
  - rewrite He. symmetry. apply bind_insert_perm with (x := (host, stage)); [done|].
    unfold pushed_errors, host_errors; simpl. rewrite Hthrown, Hout. by destruct stage.
  - exists new. split; [done|]. rewrite Hn. symmetry.
    rewrite <- (right_id_L [] (++) (tasks p ≫= emitted cache0 now)).
    apply bind_insert_perm with (x := (host, stage)); [done|].
    rewrite (right_id_L [] (++)). rewrite <- Hem. unfold emitted, calls; simpl.
    by rewrite Hre, Hthrown.
  - intros h. destruct (decide (h = host)) as [->|Hne]; [by right|].
    destruct (Hc h) as [|Hwr]; [left; by rewrite lookup_insert_ne|right].
    by apply written_insert_ne.
  - intros j h Hj Hn'. destruct (decide (h = host)) as [->|Hne]; [done|].
    apply written_insert_ne; [done|].
    destruct (decide (j = i)) as [->|Hji].
    + rewrite list_lookup_insert_eq in Hj by (by eapply lookup_lt_Some). congruence.
    + rewrite list_lookup_insert_ne in Hj by done. by apply (Hw j).
  - done.
  - done.
Qed.

Lemma resume_inv st0 times p i t :
  Inv cache0 now st0 times p ->
  Inv cache0 now st0 (times ++ [t]) (resume p (i, t)) /\
  (tasks (resume p (i, t))).*1 = (tasks p).*1.
Proof.
  intros HI. unfold resume.
  destruct (tasks p !! i) as [[host stage]|] eqn:Hi; [|by split; [apply Inv_mono|]].
  assert (Hvalid : valid cache0 now (host, stage)).
  { destruct HI as [Hv _ _ _ _ _ _ _].
    by eapply (proj1 (Forall_lookup _ _) Hv). }
  assert (Hfst : forall stage', (<[i := (host, stage')]> (tasks p)).*1 = (tasks p).*1).
  { intros stage'. rewrite list_fmap_insert. simpl.
    apply list_insert_id. by rewrite list_lookup_fmap, Hi. }
  destruct stage as [| |account]; [by split; [apply Inv_mono|]| |].
  - unfold valid in Hvalid; simpl in Hvalid.
    destruct (fetchAccount host) as [account|error] eqn:Hacc.
    + split; [|by apply Hfst].
      destruct HI as [Hv Hr He (new & Ht & Hn) Hc Hw Ha Ho]. split; simpl; try done.
      * apply Forall_insert; [done|]. by unfold valid.
      * rewrite Hr. symmetry.
        rewrite <- (right_id_L [] (++) (tasks p ≫= pushed_results cache0 now)).
        by apply bind_insert_perm with (x := (host, AwaitAccount)).
      * rewrite He. symmetry.
        rewrite <- (right_id_L [] (++) (tasks p ≫= pushed_errors cache0 now)).
        by apply bind_insert_perm with (x := (host, AwaitAccount)).
      * exists (new ++ [FetchReviewsCall host]). rewrite Ht, (assoc_L (++)).
        split; [done|]. rewrite Hn. symmetry.
        by apply bind_insert_perm with (x := (host, AwaitAccount)).
      * intros h. destruct (Hc h); [by left|right; by apply written_mono].
      * intros j h Hj Hn'. apply written_mono.
        destruct (decide (j = i)) as [->|Hji].
        -- rewrite list_lookup_insert_eq in Hj by (by eapply lookup_lt_Some). congruence.
        -- rewrite list_lookup_insert_ne in Hj by done. by apply (Hw j).
    + split; [|by apply Hfst].
      assert (Hf : fetched host = CachedError error) by (unfold fetched; by rewrite Hacc).
      replace (catch_error i host t error p) with (settle i host t p).
      * eapply settle_inv; try done.
        unfold attempt, emitted; simpl. by rewrite Hacc.
      * unfold settle, catch_error. rewrite Hf. simpl.
        by rewrite (right_id_L [] (++)).
  - unfold valid in Hvalid; simpl in Hvalid. destruct Hvalid as [Hnone Hacc].
    split; [|by destruct (fetchReviews host account); apply Hfst].
    assert (Hem : attempt host ≡ₚ emitted cache0 now (host, AwaitReviews account)).
    { unfold attempt, emitted; simpl. by rewrite Hacc. }
    destruct (fetchReviews host account) as [reviews|error] eqn:Hrev.
    + assert (Hf : fetched host = CachedReviews reviews)
        by (unfold fetched; by rewrite Hacc, Hrev).
      match goal with |- Inv _ _ _ _ ?q => replace q with (settle i host t p) end.
      * by eapply settle_inv.
      * unfold settle. rewrite Hf. simpl. by rewrite (right_id_L [] (++)).
    + assert (Hf : fetched host = CachedError error)
        by (unfold fetched; by rewrite Hacc, Hrev).
      replace (catch_error i host t error p) with (settle i host t p).
      * by eapply settle_inv.
      * unfold settle, catch_error. rewrite Hf. simpl.
        by rewrite (right_id_L [] (++)).
Qed.

Lemma start_inv st0 hosts p :
  Inv cache0 now st0 [] p /\ fetchCache (world p) = cache0 ->
  Inv cache0 now st0 [] (foldl (start_host now) p hosts) /\
  fetchCache (world (foldl (start_host now) p hosts)) = cache0 /\
  (tasks (foldl (start_host now) p hosts)).*1 = (tasks p).*1 ++ hosts.
Proof.
  revert p. induction hosts as [|host hosts IH]; intros p Hp; simpl.
  - destruct Hp. by rewrite (right_id_L [] (++)).
  - destruct (start_host_inv st0 p host Hp) as (HI & Hc & Hh).
    destruct (IH _ (conj HI Hc)) as (HI' & Hc' & Hh').
    split; [done|split; [done|]]. by rewrite Hh', Hh, <- (assoc_L (++)).
Qed.

Lemma resumes_inv st0 times schedule p :
  Inv cache0 now st0 times p ->
  Inv cache0 now st0 (times ++ schedule.*2) (foldl resume p schedule) /\
  (tasks (foldl resume p schedule)).*1 = (tasks p).*1.
Proof.
  revert times p. induction schedule as [|[i t] schedule IH]; intros times p Hp.
  - simpl. by rewrite (right_id_L [] (++)).
  - destruct (resume_inv st0 times p i t Hp) as [HI Hh].
    destruct (IH _ _ HI) as [HI' Hh'].
    rewrite <- (assoc_L (++)) in HI'.
    split; [exact HI'|]. etrans; [exact Hh'|exact Hh].
Qed.

Lemma run_pass_inv hosts schedule st0 :
  fetchCache st0 = cache0 ->
  Inv cache0 now st0 schedule.*2 (run_pass hosts now schedule st0) /\
  (tasks (run_pass hosts now schedule st0)).*1 = hosts.
Proof.
  intros Hc0. unfold run_pass.
  set (p0 := {| world := st0; pass_results := []; pass_errors := []; tasks := [] |}).
  assert (H0 : Inv cache0 now st0 [] p0 /\ fetchCache (world p0) = cache0).
  { split; [|done]. split; simpl; try done.
    - exists []. by rewrite (right_id_L [] (++)).
    - intros h. left. by rewrite Hc0. }
  destruct (start_inv st0 hosts p0 H0) as (HI & _ & Hh).
  destruct (resumes_inv st0 [] schedule _ HI) as [HI' Hh'].
  split; [done|]. by rewrite Hh', Hh.
Qed.

(** Once every callback has returned, the tasks are the hosts. *)
Lemma settled_tasks (ts : list (string * Stage)) :
  forallb settled ts = true -> ts = (fun h => (h, Done)) <$> ts.*1.
Proof.
  induction ts as [|[h stage] ts IH]; simpl; [done|].
  intros [Hs Hts]%andb_prop. unfold settled in Hs; simpl in Hs.
  f_equal; [by destruct stage|by apply IH].
Qed.

End PassInvariant.

(** ** Every callback returns under a fair schedule *)

Lemma resume_rank p j t i :
  ((rank p i + (if decide (j = i) then 1 else 0)) `min` 2 <= rank (resume p (j, t)) i)%nat.
Proof.
  unfold rank at 2, resume.
  destruct (tasks p !! j) as [[host stage]|] eqn:Hj.
  - assert (Hlt : (j < length (tasks p))%nat) by (by eapply lookup_lt_Some).
    destruct (decide (j = i)) as [->|Hne].
    + unfold rank. rewrite Hj.
      destruct stage as [| |account]; simpl.
      * rewrite Hj. lia.
      * destruct (fetchAccount host); simpl;
          rewrite list_lookup_insert_eq by done; lia.
      * destruct (fetchReviews host account); simpl;
          rewrite list_lookup_insert_eq by done; lia.
    + assert (Hsame : forall task, <[j := task]> (tasks p) !! i = tasks p !! i)
        by (intros; by apply list_lookup_insert_ne).
      unfold rank.
      destruct stage as [| |account]; simpl.
      * destruct (tasks p !! i) as [[? []]|]; lia.
      * destruct (fetchAccount host); simpl; rewrite Hsame;
          destruct (tasks p !! i) as [[? []]|]; lia.
      * destruct (fetchReviews host account); simpl; rewrite Hsame;
          destruct (tasks p !! i) as [[? []]|]; lia.
  - unfold rank. destruct (decide (j = i)) as [->|Hne].
    + rewrite Hj. simpl. lia.
    + destruct (tasks p !! i) as [[? []]|]; lia.
Qed.

Lemma resumes_rank schedule p i :
  ((rank p i + length (filter (fun ev => ev.1 = i) schedule)) `min` 2
   <= rank (foldl resume p schedule) i)%nat.
Proof.
  revert p. induction schedule as [|[j t] schedule IH]; intros p.
  - simpl. lia.
  - change (foldl resume p ((j, t) :: schedule))
      with (foldl resume (resume p (j, t)) schedule).
    specialize (IH (resume p (j, t))). pose proof (resume_rank p j t i) as Hr.
    rewrite filter_cons. simpl.
    destruct (decide (j = i)); simpl in *; lia.
Qed.

Lemma resumes_length schedule p :
  length (tasks (foldl resume p schedule)) = length (tasks p).
Proof.
  revert p. induction schedule as [|[j t] schedule IH]; intros p; [done|].
  change (foldl resume p ((j, t) :: schedule))
    with (foldl resume (resume p (j, t)) schedule).
  rewrite IH. unfold resume.
  destruct (tasks p !! j) as [[host [| |account]]|]; try done.
  - destruct (fetchAccount host); simpl; by rewrite length_insert.
  - destruct (fetchReviews host account); simpl; by rewrite length_insert.
Qed.

Lemma fair_count n schedule i :
  fair n schedule = true -> (i < n)%nat ->
  (2 <= length (filter (fun ev => ev.1 = i) schedule))%nat.
Proof.
  unfold fair. rewrite forallb_forall. intros Hall Hi.
  specialize (Hall i). rewrite bool_decide_eq_true in Hall.
  apply Hall, in_seq. lia.
Qed.

Lemma fair_settled schedule p :
  fair (length (tasks p)) schedule = true ->
  forallb settled (tasks (foldl resume p schedule)) = true.
Proof.
  intros Hfair. apply forallb_forall. intros task Hin.
  apply list_elem_of_In, list_elem_of_lookup in Hin as [i Hi].
  assert (Hlt : (i < length (tasks p))%nat).
  { rewrite <- (resumes_length schedule). by eapply lookup_lt_Some. }
  pose proof (fair_count _ _ _ Hfair Hlt) as Hc.
  pose proof (resumes_rank schedule p i) as Hr.
  unfold rank at 2 in Hr. rewrite Hi in Hr.
  unfold settled. destruct task as [h [| |account]]; simpl in *; [done|lia|lia].
Qed.

Lemma start_length now hosts p :
  length (tasks (foldl (start_host now) p hosts)) = (length (tasks p) + length hosts)%nat.
Proof.
  revert p. induction hosts as [|host hosts IH]; intros p; simpl; [lia|].
  rewrite IH. unfold start_host, get_fetchCache.
  destruct (fetchCache (world p) !! host) as [[timestamp [reviews|error]]|];
    try destruct (fresh now timestamp); try destruct (inherited host);
    simpl; rewrite length_app; simpl; lia.
Qed.

(** ** What a call of [fetchCls] does *)

Lemma attempt_host host e : e ∈ attempt host -> call_host e = Some host.
Proof.
  unfold attempt. intros He.
  destruct (fetchAccount host);
    repeat (apply elem_of_cons in He as [->|He]; [done|]); by apply elem_of_nil in He.
Qed.

Lemma emitted_host cache0 now task e :
  valid cache0 now task ->
  e ∈ emitted cache0 now task ->
  call_host e = Some task.1 /\ refetched cache0 now task.1.
Proof.
  unfold emitted, valid. destruct task as [h [| |account]]; simpl.
  - intros _. unfold calls, refetched.
    destruct (reusable cache0 now h); [by intros ?%elem_of_nil|].
    destruct (thrown cache0 h); [by intros ?%elem_of_nil|].
    intros ?%attempt_host. by split.
  - intros Hvalid He. split; [|done].
    apply elem_of_cons in He as [->|He]; [done|]. by apply elem_of_nil in He.
  - intros [Hvalid _] He. split; [|done].
    repeat (apply elem_of_cons in He as [->|He]; [done|]). by apply elem_of_nil in He.
Qed.

(** Whatever the schedule, a call touches only the trace, where it
    appends calls of the client for hosts that are fetched, and the
    cache entries of such hosts. *)
Lemma fetchCls_frame hosts now schedule st :
  let st' := (fetchCls hosts now schedule st).2 in
  alarms st' = alarms st /\ options st' = options st /\
  (exists new, trace st' = trace st ++ new /\ calls_only (fetchCache st) now hosts new) /\
  (forall h, ~ refetched (fetchCache st) now h ->
             fetchCache st' !! h = fetchCache st !! h).
Proof.
  unfold fetchCls. destruct (decide (length hosts = 0%nat)); simpl.
  { repeat split; try done. exists []. split; [by rewrite (right_id_L [] (++))|constructor]. }
  destruct (run_pass_inv (fetchCache st) now hosts schedule st eq_refl)
    as [[Hv Hr He (new & Ht & Hn) Hc Hw Ha Ho] Hh].
  assert (Hgoal : let st' := world (run_pass hosts now schedule st) in
    alarms st' = alarms st /\ options st' = options st /\
    (exists new, trace st' = trace st ++ new /\ calls_only (fetchCache st) now hosts new) /\
    (forall h, ~ refetched (fetchCache st) now h ->
               fetchCache st' !! h = fetchCache st !! h)).
  { simpl. split; [done|split; [done|split]].
    - exists new. split; [done|]. apply Forall_forall. intros e He'.
      rewrite Hn in He'. apply list_elem_of_bind in He' as (task & He' & Htask).
      apply emitted_host in He' as [Hcall Hnone];
        [|by apply (proj1 (Forall_forall _ _) Hv)].
      exists task.1. split; [done|split; [|done]].
      rewrite <- Hh. apply list_elem_of_fmap. by exists task.
    - intros h Hnot. by destruct (Hc h) as [|[Hnone _]]. }
  by destruct (forallb settled _).
Qed.

(** When the call returns, what it returns and what it has done. *)
Lemma fetchCls_fulfilled hosts now schedule st wrapper st' :
  fetchCls hosts now schedule st = (Fulfilled wrapper, st') ->
  hosts <> [] /\
  results wrapper ≡ₚ hosts ≫= host_results (fetchCache st) now /\
  errors wrapper ≡ₚ hosts ≫= host_errors (fetchCache st) now /\
  (exists new, trace st' = trace st ++ new /\
               new ≡ₚ hosts ≫= calls (fetchCache st) now) /\
  (forall h, h ∈ hosts -> refetched (fetchCache st) now h ->
             exists t, t ∈ schedule.*2 /\ fetchCache st' !! h = Some (t, fetched h)).
Proof.
  unfold fetchCls. destruct (decide (length hosts = 0%nat)) as [|Hne]; [done|].
  destruct (forallb settled _) eqn:Hs; [|done].
  intros [= <- <-]. simpl.
  destruct (run_pass_inv (fetchCache st) now hosts schedule st eq_refl)
    as [[Hv Hr He (new & Ht & Hn) Hc Hw Ha Ho] Hh].
  apply settled_tasks in Hs. rewrite Hh in Hs.
  split; [by destruct hosts|].
  rewrite Hs in Hr, He, Hn.
  rewrite list_fmap_bind in Hr, He, Hn.
  split; [exact Hr|split; [exact He|split]].
  - by exists new.
  - intros h [i Hi]%list_elem_of_lookup Hnone.
    destruct (Hw i h) as [_ Hwr]; [|done|done].
    rewrite Hs, list_lookup_fmap, Hi. done.
Qed.

(** The call returns when, and only when, every callback has. *)
Lemma fetchCls_waits hosts now schedule st :
  hosts <> [] ->
  (forall wrapper st',
      fetchCls hosts now schedule st = (Fulfilled wrapper, st') ->
      Forall (fun task => task.2 = Done) (tasks (run_pass hosts now schedule st))) /\
  (Exists (fun task => task.2 <> Done) (tasks (run_pass hosts now schedule st)) ->
   (fetchCls hosts now schedule st).1 = Pending).
Proof.
  intros Hne. unfold fetchCls.
  destruct (decide (length hosts = 0%nat)) as [H0|_]; [by destruct hosts|].
  destruct (forallb settled _) eqn:Hs; simpl.
  - split.
    + intros _ _ _. apply Forall_forall. intros task Hin%list_elem_of_In.
      rewrite forallb_forall in Hs. specialize (Hs task Hin).
      unfold settled in Hs. by destruct (task.2).
    + intros (task & Hin%list_elem_of_In & Hnot)%Exists_exists.
      rewrite forallb_forall in Hs. specialize (Hs task Hin).
      unfold settled in Hs. by destruct (task.2).
  - split; [by intros ? ? [=]|done].
Qed.

(** Under a fair schedule the call returns. *)
Lemma fetchCls_fair hosts now schedule st :
  hosts <> [] -> fair (length hosts) schedule = true ->
  exists wrapper st', fetchCls hosts now schedule st = (Fulfilled wrapper, st').
Proof.
  intros Hne Hfair. unfold fetchCls.
  destruct (decide (length hosts = 0%nat)) as [H0|_]; [by destruct hosts|].
  unfold run_pass. rewrite fair_settled; [by eauto|].
  by rewrite start_length.
Qed.

(** ** The calls of the client for one host *)

Lemma network_app host tr1 tr2 :
  network host (tr1 ++ tr2) = network host tr1 ++ network host tr2.
Proof. apply filter_app. Qed.

Lemma network_calls_only cache0 now hosts new host :
  calls_only cache0 now hosts new ->
  ~ refetched cache0 now host ->
  network host new = [].
Proof.
  intros Hall Hnot. unfold network.
  induction Hall as [|e new (h & He & _ & Hnone) _ IH]; [done|].
  rewrite filter_cons_False; [done|]. rewrite He. by intros [= ->].
Qed.






Lemma fresh_reusable cache0 now host timestamp cached :
  cache0 !! host = Some (timestamp, cached) ->
  now - timestamp < REVIEW_CACHE_DURATION_IN_MILLISECONDS config ->
  reusable cache0 now host = Some cached.
Proof.
  unfold reusable, fresh. intros -> Hnew. by rewrite bool_decide_true.
Qed.

(** A host that has a cache entry is not one whose callback throws. *)
Lemma own_entry_not_thrown cache0 host entry :
  cache0 !! host = Some entry -> thrown cache0 host = false.
Proof. unfold thrown, get_fetchCache. by intros ->. Qed.

Lemma reusable_not_refetched cache0 now host :
  is_Some (reusable cache0 now host) -> ~ refetched cache0 now host.
Proof. intros [c Hc] [Hnone _]. congruence. Qed.

Lemma thrown_not_refetched cache0 now host :
  thrown cache0 host = true -> ~ refetched cache0 now host.
Proof. intros Hthrown [_ Hnot]. congruence. Qed.


Lemma filter_all {A} (P : A -> Prop) `{forall x, Decision (P x)} (l : list A) :
  Forall P l -> filter P l = l.
Proof.
  induction 1 as [|x l Hx _ IH]; [done|]. by rewrite filter_cons_True, IH.
Qed.

(** The hosts whose callback throws contribute nothing. *)
Lemma host_results_filter cache0 now hosts :
  hosts ≫= host_results cache0 now =
  filter (fun h => thrown cache0 h = false) hosts
    ≫= (fun h => reviews_of (outcome cache0 now h)).
Proof.
  induction hosts as [|h hosts IH]; [done|].
  rewrite bind_cons, IH. unfold host_results at 1.
  destruct (thrown cache0 h) eqn:Hthrown.
  - by rewrite filter_cons_False by (by rewrite Hthrown).
  - by rewrite filter_cons_True, bind_cons by done.
Qed.

Lemma host_errors_filter cache0 now hosts :
  hosts ≫= host_errors cache0 now =
  filter (fun h => thrown cache0 h = false) hosts
    ≫= (fun h => error_of h (outcome cache0 now h)).
Proof.
  induction hosts as [|h hosts IH]; [done|].
  rewrite bind_cons, IH. unfold host_errors at 1.
  destruct (thrown cache0 h) eqn:Hthrown.
  - by rewrite filter_cons_False by (by rewrite Hthrown).
  - by rewrite filter_cons_True, bind_cons by done.
Qed.

(** ** The fetch orchestrator *)

(** C6.  [fetchCls] called with an empty array of hosts rejects with
    the error whose message is [config.NO_HOST_ALLOWED], whatever the
    schedule, and leaves the state as it is: nothing is appended to the
    trace, so the client is not called for any host, and the cache is
    not touched.  The same holds when the call comes from the popup,
    through [getSearchResults]. *)
Theorem fetchCls_no_host now schedule st :
  fetchCls [] now schedule st = (Rejected (new_Error (NO_HOST_ALLOWED config)), st) /\
  getSearchResults [] now schedule st =
    (Rejected (new_Error (NO_HOST_ALLOWED config)), st) /\
  (forall host, network host (trace (fetchCls [] now schedule st).2) = network host (trace st)).
Proof. done. Qed.

(** C2.  A host of the call whose cache entry was recorded less than
    the cache duration before [now] is answered from the cache.
    Whatever the schedule, the trace gets no call of the client for that
    host and the entry stays as it was.  When the call returns, cached
    reviews are among the results and no error is reported for the
    host, and a cached error is among the errors, with the host.  Under
    a fair schedule the call returns. *)
Theorem fresh_entry_reused hosts now schedule st host timestamp cached :
  host ∈ hosts ->
  fetchCache st !! host = Some (timestamp, cached) ->
  now - timestamp < REVIEW_CACHE_DURATION_IN_MILLISECONDS config ->
  network host (trace (fetchCls hosts now schedule st).2) = network host (trace st) /\
  fetchCache (fetchCls hosts now schedule st).2 !! host = Some (timestamp, cached) /\
  (forall wrapper st',
      fetchCls hosts now schedule st = (Fulfilled wrapper, st') ->
      match cached with
      | CachedReviews reviews =>
          reviews ∈ results wrapper /\ forall error, (host, error) ∉ errors wrapper
      | CachedError error => (host, error) ∈ errors wrapper
      end) /\
  (fair (length hosts) schedule = true ->
   exists wrapper st', fetchCls hosts now schedule st = (Fulfilled wrapper, st')).
Proof.
  intros Hin Hentry Hnew.
  pose proof (fresh_reusable _ _ _ _ _ Hentry Hnew) as Hre.
  pose proof (own_entry_not_thrown _ _ _ Hentry) as Hthrown.
  assert (Hnot : ~ refetched (fetchCache st) now host)
    by (apply reusable_not_refetched; eauto).
  destruct (fetchCls_frame hosts now schedule st) as (_ & _ & (new & Ht & Hcalls) & Hc).
  split; [|split; [|split]].
  - rewrite Ht, network_app, (network_calls_only _ _ _ _ _ Hcalls) by done.
    by rewrite (right_id_L [] (++)).
  - rewrite Hc by done. done.
  - intros wrapper st' Hret.
    apply fetchCls_fulfilled in Hret as (_ & Hr & He & _).
    assert (Hout : outcome (fetchCache st) now host = cached)
      by (unfold outcome; by rewrite Hre).
    destruct cached as [reviews|error].
    + split.
      * rewrite Hr. apply list_elem_of_bind. exists host.
        unfold host_results. rewrite Hthrown, Hout. split; [|done].
        by apply list_elem_of_singleton.
      * intros error. rewrite He. intros (h & Hh & _)%list_elem_of_bind.
        unfold host_errors in Hh.
        destruct (thrown (fetchCache st) h); [by apply elem_of_nil in Hh|].
        destruct (outcome (fetchCache st) now h) eqn:Hoh; simpl in Hh;
          [by apply elem_of_nil in Hh|].
        apply list_elem_of_singleton in Hh as [= <- <-]. congruence.
    + rewrite He. apply list_elem_of_bind. exists host.
      unfold host_errors. rewrite Hthrown, Hout. split; [|done].
      by apply list_elem_of_singleton.
  - apply fetchCls_fair. intros ->. by apply elem_of_nil in Hin.
Qed.


(** C1.  [fetchCls] called with the hosts [A] and [B], both of which
    are fetched (neither has a fresh cache entry, and for neither does
    [fetchCache[host]] find an inherited member), when the attempt for
    [A] fails with [err] and the attempt for [B] yields [reviews]: under
    a fair schedule the call returns; it never rejects; it is pending as
    long as one of the two callbacks has not ended; and when it returns,
    in whatever order the callbacks were resumed, both callbacks have
    ended, [errors] is [[(A, err)]], [results] is [[reviews]], and the
    cache holds the error for [A] and the reviews for [B], each with the
    time of an event of the schedule.  For any hosts, at least one, a
    call never rejects, whatever the other hosts do; when it returns,
    each host whose callback did not throw has contributed its outcome,
    the reviews to [results] or the error to [errors], and the hosts
    that were fetched have their outcome in the cache. *)
Theorem partial_failure_isolated A B err reviews now schedule st :
  refetched (fetchCache st) now A ->
  refetched (fetchCache st) now B ->
  fetched A = CachedError err ->
  fetched B = CachedReviews reviews ->
  (fair 2 schedule = true ->
   exists wrapper st', fetchCls [A; B] now schedule st = (Fulfilled wrapper, st')) /\
  (forall error st', fetchCls [A; B] now schedule st <> (Rejected error, st')) /\
  (Exists (fun task => task.2 <> Done) (tasks (run_pass [A; B] now schedule st)) ->
   (fetchCls [A; B] now schedule st).1 = Pending) /\
  (forall wrapper st',
      fetchCls [A; B] now schedule st = (Fulfilled wrapper, st') ->
      Forall (fun task => task.2 = Done) (tasks (run_pass [A; B] now schedule st)) /\
      errors wrapper = [(A, err)] /\
      results wrapper = [reviews] /\
      (exists t, t ∈ schedule.*2 /\ fetchCache st' !! A = Some (t, CachedError err)) /\
      (exists t, t ∈ schedule.*2 /\ fetchCache st' !! B = Some (t, CachedReviews reviews))) /\
  (forall hosts, hosts <> [] ->
      (forall error st', fetchCls hosts now schedule st <> (Rejected error, st')) /\
      (fair (length hosts) schedule = true ->
       exists wrapper st', fetchCls hosts now schedule st = (Fulfilled wrapper, st')) /\
      (forall wrapper st',
          fetchCls hosts now schedule st = (Fulfilled wrapper, st') ->
          results wrapper ≡ₚ
            filter (fun h => thrown (fetchCache st) h = false) hosts
              ≫= (fun h => reviews_of (outcome (fetchCache st) now h)) /\
          errors wrapper ≡ₚ
            filter (fun h => thrown (fetchCache st) h = false) hosts
              ≫= (fun h => error_of h (outcome (fetchCache st) now h)) /\
          (forall h, h ∈ hosts -> refetched (fetchCache st) now h ->
             exists t, t ∈ schedule.*2 /\ fetchCache st' !! h = Some (t, fetched h)))).
Proof.
  intros HA HB HfA HfB.
  destruct (fetchCls_waits [A; B] now schedule st) as [Hall Hpending]; [done|].
  split; [|split; [|split; [|split]]]; cycle 4.
  { intros hosts Hne. split; [|split].
    - intros error st'. unfold fetchCls.
      destruct (decide (length hosts = 0%nat)); [by destruct hosts|].
      by destruct (forallb settled _).
    - by apply fetchCls_fair.
    - intros wrapper st' Hret.
      apply fetchCls_fulfilled in Hret as (_ & Hr & He & _ & Hc).
      by rewrite Hr, He, host_results_filter, host_errors_filter. }
  - intros Hfair. by apply (fetchCls_fair [A; B]).
  - intros error st'. unfold fetchCls. simpl. by destruct (forallb settled _).
  - exact Hpending.
  - intros wrapper st' Hret. split; [by eapply Hall|].
    apply fetchCls_fulfilled in Hret as (_ & Hr & He & _ & Hc).
    destruct HA as [HA HtA], HB as [HB HtB].
    unfold host_results, host_errors, outcome in Hr, He. simpl in Hr, He.
    rewrite HtA, HtB, HA, HB in Hr, He. simpl in Hr, He. rewrite HfA, HfB in Hr, He.
    simpl in Hr, He.
    split; [by apply Permutation_singleton_r in He|].
    split; [by apply Permutation_singleton_r in Hr|].
    rewrite <- HfA, <- HfB.
    split; apply Hc; try done; [apply elem_of_cons; by left|].
    apply elem_of_cons; right. apply elem_of_cons; by left.
Qed.

(** ** The badge *)

Lemma visit_found categories data ordering :
  foldl (visit categories) (Normal (Some data)) ordering = Normal (Some data).
Proof. by induction ordering. Qed.

Lemma visit_first_match categories ordering :
  CategoryMap_wf categories ->
  (forall label, label ∈ ordering -> BADGE_DATA messages label <> Undefined) ->
  foldl (visit categories) (Normal None) ordering =
  Normal (first_match (category_match categories) ordering).
Proof.
  intros Hcat. induction ordering as [|label ordering IH]; intros Hconf; [done|].
  simpl. unfold category_match at 1.
  assert (Hl : BADGE_DATA messages label <> Undefined)
    by (apply Hconf, elem_of_cons; by left).
  assert (IH' : foldl (visit categories) (Normal None) ordering =
                Normal (first_match (category_match categories) ordering)).
  { apply IH. intros l Hin. apply Hconf, elem_of_cons. by right. }
  destruct (categories !! label) as [items|] eqn:Hitems; [|done].
  destruct items as [|item items]; [by apply Hcat in Hitems|].
  destruct (BADGE_DATA messages label) as [| |data]; [done|done|].
  apply visit_found.
Qed.

(** C4.  When [errors] is not empty, whatever [results] holds, the
    badge is the error badge made from the first entry of [errors]: the
    text ['!'], the color ['red'], the title ['Error: '] followed by the
    message of that error, and the icon of late assignments.  [update]
    hands that badge, and no other, to [browser.updateBadge]. *)
Theorem errors_take_precedence wrapper first rest st :
  errors wrapper = first :: rest ->
  updateData wrapper =
    Normal {| Browser.text := Some "!";
              Browser.color := Some "red";
              Browser.title := Some ("Error: " +:+ message first.2);
              Browser.icon :=
                Some [("24", "img/ic_assignment_late_black_24dp_1x.png");
                      ("48", "img/ic_assignment_late_black_24dp_2x.png")] |} /\
  (forall results',
      updateData {| results := results'; errors := errors wrapper |} =
      updateData wrapper) /\
  (update wrapper st).1 = Normal () /\
  trace (update wrapper st).2 =
    trace st ++ [AlarmsClear "auto-refresh";
                 AlarmsCreate "auto-refresh" (REFRESH_DELAY_IN_MINUTES config);
                 UpdateBadge (error_badge first.2)].
Proof.
  intros Herr. unfold update, updateData. simpl. rewrite Herr. simpl.
  repeat split. by rewrite <- !(assoc_L (++)).
Qed.

Lemma first_match_app {A B} (f : A -> option B) (before rest : list A) :
  Forall (fun x => f x = None) before ->
  first_match f (before ++ rest) = first_match f rest.
Proof. induction 1 as [|x before Hx _ IH]; [done|]. simpl. by rewrite Hx. Qed.

(** C5.  When [errors] is empty, the category map has no empty
    category and every label of the ordering has an entry (a template
    or [null]) in [messages.BADGE_DATA], the badge is the one the
    specification describes.  For the first label of the ordering that
    is in the map and has a template, the text is the number of items
    of the category, the title is [formatTitle] of the template applied
    to that number, and the color and the icon are those of the
    template; when the ordering has no such label the badge is the
    default badge.  [update] hands exactly that one badge to
    [browser.updateBadge].  With the ordering [needsAttention, outgoing,
    readyToSubmit] and the map [{needsAttention: [x, y], readyToSubmit:
    [z]}] the badge is the one of [needsAttention] with the count 2. *)
Theorem category_badge_by_priority wrapper st :
  errors wrapper = [] ->
  CategoryMap_wf (getCategoryMap (results wrapper)) ->
  Messages_wf ->
  updateData wrapper = Normal (derive (getCategoryMap (results wrapper))) /\
  (forall before label after items data,
      SECTION_ORDERING messages = before ++ label :: after ->
      Forall (fun l => category_match (getCategoryMap (results wrapper)) l = None) before ->
      getCategoryMap (results wrapper) !! label = Some items ->
      BADGE_DATA messages label = Object data ->
      updateData wrapper =
        Normal {| Browser.text := Some (pretty (length items));
                  Browser.color := Some (template_color data);
                  Browser.title := Some (formatTitle data (length items));
                  Browser.icon := Some (template_icon data) |}) /\
  (Forall (fun l => category_match (getCategoryMap (results wrapper)) l = None)
     (SECTION_ORDERING messages) ->
   updateData wrapper = Normal (DEFAULT_BADGE_DATA messages)) /\
  (update wrapper st).1 = Normal () /\
  trace (update wrapper st).2 =
    trace st ++ [AlarmsClear "auto-refresh";
                 AlarmsCreate "auto-refresh" (REFRESH_DELAY_IN_MINUTES config);
                 UpdateBadge (derive (getCategoryMap (results wrapper)))] /\
  (forall x y z data,
      SECTION_ORDERING messages = ["needsAttention"; "outgoing"; "readyToSubmit"] ->
      getCategoryMap (results wrapper) =
        {[ "needsAttention" := [x; y]; "readyToSubmit" := [z] ]} ->
      BADGE_DATA messages "needsAttention" = Object data ->
      updateData wrapper =
        Normal {| Browser.text := Some "2";
                  Browser.color := Some (template_color data);
                  Browser.title := Some (formatTitle data 2);
                  Browser.icon := Some (template_icon data) |}).
Proof.
  intros Herr Hcat Hconf.
  assert (Hd : updateData wrapper = Normal (derive (getCategoryMap (results wrapper)))).
  { unfold updateData, derive. rewrite Herr, visit_first_match by done.
    by destruct (first_match _ _). }
  split; [done|]. split; [|split].
  - intros before label after items data Hord Hbefore Hitems Hdata.
    rewrite Hd. unfold derive. rewrite Hord, first_match_app by done. simpl.
    unfold category_match at 1. rewrite Hitems, Hdata.
    destruct items as [|item items]; [by apply Hcat in Hitems|done].
  - intros Hnone. rewrite Hd. unfold derive.
    rewrite <- (right_id_L [] (++) (SECTION_ORDERING messages)).
    by rewrite first_match_app.
  - split; [unfold update; by rewrite Hd|].
    split; [unfold update; rewrite Hd; simpl; by rewrite <- !(assoc_L (++))|].
    intros x y z data Hord Hmap Hdata. rewrite Hd. unfold derive.
    rewrite Hord, Hmap. simpl. unfold category_match.
    rewrite lookup_insert_eq, Hdata. done.
Qed.

(** ** The refresh scheduler *)

Lemma rearmed_alarms st delay :
  own_alarms st ->
  <["auto-refresh" := delay]> (delete "auto-refresh" (alarms st)) =
  {[ "auto-refresh" := delay ]}.
Proof.
  intros Hown. apply map_eq. intros name.
  destruct (decide (name = "auto-refresh")) as [->|Hne].
  - by rewrite lookup_insert_eq, lookup_singleton_eq.
  - rewrite lookup_insert_ne, lookup_delete_ne, lookup_singleton_ne by done.
    destruct (alarms st !! name) eqn:Hname; [|done].
    destruct Hne. apply Hown. by rewrite Hname.
Qed.

(** [fetchAndUpdate] when the promise of [fetchCls] is fulfilled. *)
Lemma fetchAndUpdate_pass hosts now schedule st wrapper st1 :
  fetchCls hosts now schedule st = (Fulfilled wrapper, st1) ->
  let st' := (fetchAndUpdate hosts now schedule st).2 in
  trace st' =
    trace st1 ++ [AlarmsClear "auto-refresh";
                  AlarmsCreate "auto-refresh" (REFRESH_DELAY_IN_MINUTES config)]
              ++ after_rearming wrapper /\
  alarms st' =
    <["auto-refresh" := REFRESH_DELAY_IN_MINUTES config]>
      (delete "auto-refresh" (alarms st1)) /\
  fetchCache st' = fetchCache st1 /\ options st' = options st1.
Proof.
  intros Hret. unfold fetchAndUpdate, update, after_rearming. rewrite Hret.
  destruct (updateData wrapper) as [data|error]; simpl.
  - destruct (notify _ _); simpl; rewrite <- !(assoc_L (++)); by repeat split.
  - rewrite <- !(assoc_L (++)). by repeat split.
Qed.

(** [fetchAndUpdate] when the promise of [fetchCls] is not fulfilled. *)
Lemma fetchAndUpdate_no_pass hosts now schedule st :
  (forall wrapper st1, fetchCls hosts now schedule st <> (Fulfilled wrapper, st1)) ->
  fetchAndUpdate hosts now schedule st = fetchCls hosts now schedule st.
Proof.
  intros Hno. unfold fetchAndUpdate.
  destruct (fetchCls hosts now schedule st) as [[wrapper|error|] st1]; try done.
  by destruct (Hno wrapper st1).
Qed.

Lemma own_alarms_size st : own_alarms st -> (size (alarms st) <= 1)%nat.
Proof.
  intros Hown.
  destruct (alarms st !! "auto-refresh") as [delay|] eqn:Harmed.
  - replace (alarms st) with ({[ "auto-refresh" := delay ]} : gmap string Z).
    + by rewrite map_size_singleton.
    + apply map_eq. intros name.
      destruct (decide (name = "auto-refresh")) as [->|Hne].
      * by rewrite lookup_singleton_eq.
      * rewrite lookup_singleton_ne by done.
        destruct (alarms st !! name) eqn:Hname; [|done].
        destruct Hne. apply Hown. by rewrite Hname.
  - replace (alarms st) with (∅ : gmap string Z); [rewrite map_size_empty; lia|].
    apply map_eq. intros name. rewrite lookup_empty.
    destruct (alarms st !! name) eqn:Hname; [|done].
    assert (name = "auto-refresh") as -> by (apply Hown; by rewrite Hname).
    congruence.
Qed.

(** The alarms of the worker stay the only ones. *)
Lemma fetchAndUpdate_own_alarms hosts now schedule st :
  own_alarms st -> own_alarms (fetchAndUpdate hosts now schedule st).2.
Proof.
  intros Hown.
  destruct (fetchCls hosts now schedule st) as [[wrapper|error|] st1] eqn:Hret.
  - destruct (fetchAndUpdate_pass _ _ _ _ _ _ Hret) as (_ & Ha & _).
    unfold own_alarms. rewrite Ha. intros name.
    destruct (decide (name = "auto-refresh")) as [->|Hne]; [done|].
    rewrite lookup_insert_ne, lookup_delete_ne by done.
    pose proof (fetchCls_frame hosts now schedule st) as (Hsame & _).
    rewrite Hret in Hsame. simpl in Hsame. rewrite Hsame. apply Hown.
  - rewrite fetchAndUpdate_no_pass by (rewrite Hret; congruence).
    pose proof (fetchCls_frame hosts now schedule st) as (Hsame & _).
    unfold own_alarms. rewrite Hsame. apply Hown.
  - rewrite fetchAndUpdate_no_pass by (rewrite Hret; congruence).
    pose proof (fetchCls_frame hosts now schedule st) as (Hsame & _).
    unfold own_alarms. rewrite Hsame. apply Hown.
Qed.

Lemma fetchAndUpdate_fair hosts now schedule st :
  hosts <> [] -> fair (length hosts) schedule = true -> own_alarms st ->
  let st' := (fetchAndUpdate hosts now schedule st).2 in
  (exists new wrapper,
      trace st' =
        trace st ++ new
          ++ [AlarmsClear "auto-refresh";
              AlarmsCreate "auto-refresh" (REFRESH_DELAY_IN_MINUTES config)]
          ++ after_rearming wrapper /\
      new ≡ₚ hosts ≫= calls (fetchCache st) now) /\
  alarms st' = {[ "auto-refresh" := REFRESH_DELAY_IN_MINUTES config ]}.
Proof.
  intros Hne Hfair Hown.
  destruct (fetchCls_fair hosts now schedule st Hne Hfair) as (wrapper & st1 & Hret).
  destruct (fetchAndUpdate_pass _ _ _ _ _ _ Hret) as (Ht & Ha & _).
  pose proof (fetchCls_frame hosts now schedule st) as (Hsame & _).
  rewrite Hret in Hsame. simpl in Hsame.
  apply fetchCls_fulfilled in Hret as (_ & _ & _ & (new & Ht1 & Hn) & _).
  split.
  - exists new, wrapper. rewrite Ht, Ht1. by rewrite <- !(assoc_L (++)).
  - rewrite Ha. apply (rearmed_alarms st1).
    unfold own_alarms. rewrite Hsame. apply Hown.
Qed.

(** C7, as the code has it.  A refresh asked for by the popup,
    [getSearchResults(hosts)] with at least one host and a fair
    schedule, first performs its pass: the calls of the client are the
    first events it appends to the trace.  Only then does [update]
    clear the alarm ['auto-refresh'] and create it anew with the delay
    [config.REFRESH_DELAY_IN_MINUTES], before the badge and the
    notifications.  When no alarm but that of the worker was armed
    before, exactly that alarm is armed afterwards, and also after a
    second refresh that follows at once.  After any refresh, with any
    hosts and any schedule, at most one alarm is armed. *)
Theorem on_demand_refresh_rearms hosts now schedule now2 schedule2 st :
  own_alarms st ->
  hosts <> [] ->
  fair (length hosts) schedule = true ->
  fair (length hosts) schedule2 = true ->
  (exists new wrapper,
      trace (getSearchResults hosts now schedule st).2 =
        trace st ++ new
          ++ [AlarmsClear "auto-refresh";
              AlarmsCreate "auto-refresh" (REFRESH_DELAY_IN_MINUTES config)]
          ++ after_rearming wrapper /\
      new ≡ₚ hosts ≫= calls (fetchCache st) now) /\
  alarms (getSearchResults hosts now schedule st).2 =
    {[ "auto-refresh" := REFRESH_DELAY_IN_MINUTES config ]} /\
  alarms (getSearchResults hosts now2 schedule2
            (getSearchResults hosts now schedule st).2).2 =
    {[ "auto-refresh" := REFRESH_DELAY_IN_MINUTES config ]} /\
  size (alarms (getSearchResults hosts now2 schedule2
                  (getSearchResults hosts now schedule st).2).2) = 1%nat /\
  (forall hosts' now' schedule',
      (size (alarms (getSearchResults hosts' now' schedule' st).2) <= 1)%nat).
Proof.
  intros Hown Hne Hfair Hfair2. unfold getSearchResults.
  destruct (fetchAndUpdate_fair hosts now schedule st Hne Hfair Hown) as [Ht Ha].
  pose proof (fetchAndUpdate_own_alarms hosts now schedule st Hown) as Hown1.
  destruct (fetchAndUpdate_fair hosts now2 schedule2 _ Hne Hfair2 Hown1) as [_ Ha2].
  split; [done|]. split; [done|]. split; [done|].
  split; [by rewrite Ha2, map_size_singleton|].
  intros hosts' now' schedule'. by apply own_alarms_size, fetchAndUpdate_own_alarms.
Qed.

(** C10.  The alarm ['auto-refresh'] fires while no instance is
    allowed, so that the list of hosts is empty: [onAlarm] does not
    call [fetchAndUpdate]; its promise is fulfilled, nothing is logged
    to the console, no call of the client, of the alarms or of the badge
    is made, and the cache is left as it is.  The alarm that fired is
    gone and none is armed, until the start-up listener creates it
    again or a refresh from the popup, with hosts, does. *)
Theorem alarm_without_host_stops_polling now schedule st instances :
  own_alarms st ->
  is_Some (alarms st !! "auto-refresh") ->
  fetchAllowedInstances (options st) = inl instances ->
  map host instances = [] ->
  onAlarm now schedule st = (Fulfilled (), st) /\
  trace (alarm_fires "auto-refresh" now schedule st) = trace st /\
  fetchCache (alarm_fires "auto-refresh" now schedule st) = fetchCache st /\
  alarms (alarm_fires "auto-refresh" now schedule st) = ∅ /\
  (forall now' schedule',
      alarms (onStartup_listener now' schedule'
                (alarm_fires "auto-refresh" now schedule st)) =
      {[ "auto-refresh" := REFRESH_DELAY_IN_MINUTES config ]}) /\
  (forall hosts now' schedule',
      hosts <> [] -> fair (length hosts) schedule' = true ->
      alarms (getSearchResults hosts now' schedule'
                (alarm_fires "auto-refresh" now schedule st)).2 =
      {[ "auto-refresh" := REFRESH_DELAY_IN_MINUTES config ]}).
Proof.
  intros Hown [delay Harmed] Hinst Hhosts.
  assert (Hidle : forall now' schedule' s,
             options s = options st -> onAlarm now' schedule' s = (Fulfilled (), s)).
  { intros now' schedule' s Hs. unfold onAlarm. rewrite Hs, Hinst, Hhosts. simpl.
    destruct (decide (0 < 0)%nat); [lia|done]. }
  assert (Hfired : alarm_fires "auto-refresh" now schedule st =
                   {| fetchCache := fetchCache st;
                      alarms := delete "auto-refresh" (alarms st);
                      options := options st; trace := trace st |}).
  { unfold alarm_fires, onAlarm_listener. rewrite Harmed.
    rewrite decide_True by done. by rewrite Hidle. }
  assert (Hnone : delete "auto-refresh" (alarms st) = ∅).
  { apply map_eq. intros name. rewrite lookup_empty.
    destruct (decide (name = "auto-refresh")) as [->|Hne];
      [by rewrite lookup_delete_eq|].
    rewrite lookup_delete_ne by done.
    destruct (alarms st !! name) eqn:Hname; [|done].
    destruct Hne. apply Hown. by rewrite Hname. }
  rewrite Hfired, Hnone. simpl.
  split; [by apply Hidle|]. split; [done|]. split; [done|]. split; [done|]. split.
  - intros now' schedule'. unfold onStartup_listener. simpl.
    rewrite lookup_empty, Hidle by done. simpl. by rewrite insert_empty.
  - intros hosts now' schedule' Hne Hfair. unfold getSearchResults.
    apply fetchAndUpdate_fair; try done.
    intros name [d Hd]. simpl in Hd. by rewrite lookup_empty in Hd.
Qed.

(** ** The message proxy *)

(** Induction over values, through arrays and objects. *)
Lemma JsValue_nested_ind (P : JsValue -> Prop) :
  P JsUndefined ->
  (forall name returns,
      (forall result, returns = Normal result -> P result) -> P (JsFunction name returns)) ->
  P JsNull ->
  (forall b, P (JsBoolean b)) ->
  (forall n, P (JsNumeric n)) ->
  (forall s, P (JsString s)) ->
  (forall elements, Forall P elements -> P (JsArray elements)) ->
  (forall properties, Forall (fun kv => P kv.2) properties -> P (JsObject properties)) ->
  forall value, P value.
Proof.
  intros Hundef Hfun Hnull Hbool Hnum Hstr Harr Hobj.
  fix IH 1.
  intros [ |name returns| |b|n|s|elements|properties];
    [exact Hundef| |exact Hnull|apply Hbool|apply Hnum|apply Hstr| | ].
  - apply Hfun. destruct returns as [result|error].
    + intros r Hr. injection Hr as <-. apply IH.
    + intros r Hr. discriminate Hr.
  - apply Harr. induction elements as [|v elements IHl];
      constructor; [apply IH|exact IHl].
  - apply Hobj. induction properties as [|[k v] properties IHl];
      constructor; [apply IH|exact IHl].
Qed.

(** An object is serialised through its method [toJSON] when it has
    one, and property by property otherwise. *)
Lemma serialize_object properties :
  serialize false (JsObject properties) =
  match toJSON_method properties with
  | Some (Normal result) => serialize true result
  | Some (Throw error) => Throw error
  | None => serialize true (JsObject properties)
  end.
Proof.
  simpl. generalize (object_text (map (fun kv => (kv.1, serialize false kv.2)) properties)).
  intros members. induction properties as [|[key held] properties IH]; [done|].
  simpl. destruct (decide (key = "toJSON")); [|exact IH].
  destruct held as [ |name [result|error]| | | | | | ]; done.
Qed.

(** Plain data holds no function, hence no method [toJSON]. *)
Lemma plain_data_toJSON properties :
  forallb (fun kv => plain_data kv.2) properties = true -> toJSON_method properties = None.
Proof.
  induction properties as [|[key held] properties IH]; [done|]. simpl.
  intros [Hheld Hall]%andb_prop. destruct (decide (key = "toJSON")); [|by apply IH].
  by destruct held.
Qed.

(** Plain data has a JSON text, and parsing that text gives it back. *)
Lemma plain_data_stringify value called :
  plain_data value = true ->
  exists json, serialize called value = Normal (Some json) /\ JSON_parse json = value.
Proof.
  revert called.
  induction value as [ |name returns _| |b|n|s|elements IH|properties IH]
    using JsValue_nested_ind; intros called; try done; try (intros _; by eexists).
  - destruct n; [intros _; by eexists|done..].
  - simpl. intros Hall.
    assert (Helements :
              first_thrown (map (serialize false) elements) = None /\
              map JSON_parse (omap array_member (map (serialize false) elements)) = elements).
    { induction IH as [|v elements Hv _ IHl]; [done|].
      simpl in Hall. apply andb_prop in Hall as [Hp Hall].
      destruct (Hv false Hp) as (j & Hs & Hj). destruct (IHl Hall) as [Hthrown Hparse].
      simpl. rewrite Hs. simpl. split; [done|]. f_equal; [exact Hj|exact Hparse]. }
    destruct Helements as [Hthrown Hparse]. unfold array_text. rewrite Hthrown.
    eexists. split; [done|]. simpl. f_equal. exact Hparse.
  - intros Hall.
    assert (Hmembers :
              first_thrown (map (fun kv => (kv.1, serialize false kv.2)) properties).*2 = None /\
              map (fun kj => (kj.1, JSON_parse kj.2))
                (omap object_member (map (fun kv => (kv.1, serialize false kv.2)) properties)) =
              properties).
    { simpl in Hall. induction IH as [|[k v] properties Hv _ IHl]; [done|].
      simpl in Hall. apply andb_prop in Hall as [Hp Hall].
      destruct (Hv false Hp) as (j & Hs & Hj). destruct (IHl Hall) as [Hthrown Hparse].
      simpl in *. unfold object_member at 1. simpl. rewrite Hs. simpl.
      split; [done|]. f_equal; [by rewrite Hj|exact Hparse]. }
    destruct Hmembers as [Hthrown Hparse].
    assert (Hs : serialize true (JsObject properties) =
                 Normal (Some (JObject
                   (omap object_member
                      (map (fun kv => (kv.1, serialize false kv.2)) properties))))).
    { simpl. unfold object_text. by rewrite Hthrown. }
    eexists. split.
    + destruct called; [exact Hs|].
      rewrite serialize_object, plain_data_toJSON by done. exact Hs.
    + simpl. f_equal. exact Hparse.
Qed.

Lemma plain_data_roundtrip value :
  plain_data value = true -> JSON_roundtrip value = Normal value.
Proof.
  intros (json & Hs & Hp)%(plain_data_stringify value false). unfold JSON_roundtrip, JSON_stringify.
  by rewrite Hs, Hp.
Qed.

(** Of an object without a method [toJSON] whose properties hold plain
    data, functions or [undefined], the plain data is what remains. *)
Lemma object_roundtrip properties :
  toJSON_method properties = None ->
  Forall (fun kv => plain_data kv.2 = true \/ without_JSON kv.2 = true) properties ->
  JSON_roundtrip (JsObject properties) =
  Normal (JsObject (filter (fun kv => plain_data kv.2 = true) properties)).
Proof.
  intros Hnone Hall. unfold JSON_roundtrip, JSON_stringify.
  rewrite serialize_object, Hnone. simpl. unfold object_text.
  assert (Hmembers :
    first_thrown (map (fun kv => (kv.1, serialize false kv.2)) properties).*2 = None /\
    map (fun kj => (kj.1, JSON_parse kj.2))
      (omap object_member (map (fun kv => (kv.1, serialize false kv.2)) properties)) =
    filter (fun kv => plain_data kv.2 = true) properties).
  { clear Hnone. induction Hall as [|[k v] properties Hv _ IHl]; [done|].
    destruct IHl as [Hthrown Hparse]. simpl in *. unfold object_member at 1. simpl.
    destruct Hv as [Hp|Hw].
    - rewrite filter_cons_True by done.
      destruct (plain_data_stringify v false Hp) as (j & Hs & Hj). rewrite Hs. simpl.
      split; [done|]. f_equal; [by rewrite Hj|exact Hparse].
    - rewrite filter_cons_False by (simpl; destruct v; simpl in *; congruence).
      destruct v; simpl in *; try done. }
  destruct Hmembers as [-> Hparse]. simpl. do 2 f_equal. exact Hparse.
Qed.

(** An object with a method [toJSON] is replaced by what the method
    returns. *)
Lemma toJSON_roundtrip properties result :
  toJSON_method properties = Some (Normal result) ->
  plain_data result = true ->
  JSON_roundtrip (JsObject properties) = Normal result.
Proof.
  intros Hm Hp. unfold JSON_roundtrip, JSON_stringify. rewrite serialize_object, Hm.
  destruct (plain_data_stringify result true Hp) as (json & -> & Hparse). by rewrite Hparse.
Qed.

Lemma starts_with_refl s : starts_with s s = true.
Proof. induction s as [|c s IH]; [done|]. simpl. by rewrite bool_decide_true, IH. Qed.

Lemma contains_refl s : contains s s = true.
Proof. destruct s; simpl; [done|]. by rewrite bool_decide_true, starts_with_refl. Qed.

Lemma contains_after before part whole :
  contains part whole = true -> contains part (before +:+ whole) = true.
Proof.
  intros Hwhole. induction before as [|c before IH]; [done|].
  change (String.String c before +:+ whole) with (String.String c (before +:+ whole)).
  simpl. rewrite IH. by destruct (starts_with _ _).
Qed.

(** The text that [String] makes of an instance of [Error] holds the
    message of the error. *)
Lemma String_error_message name m :
  contains m (String_error (ErrorObject name m)) = true.
Proof.
  unfold String_error. destruct (decide (name = "")) as [_|_]; [apply contains_refl|].
  destruct (decide (m = "")) as [->|_]; [by destruct name|].
  apply contains_after, (contains_after ": "), contains_refl.
Qed.

(** C8, as the code has it.  For a message whose command names no
    operation of the handler, the listener throws a [TypeError] and the
    state is as before: [reply] is not called, so no answer, and no
    unknown-command error, reaches the sender.  For a message whose
    command names an operation, a promise that rejects is answered by
    [{error: String(error)}]. *)
Theorem unknown_command_throws {Arg : Type}
    (handler : string -> option (Operation Arg)) command args st :
  handler command = None ->
  newMessageProxy handler (command, args) st =
    (Throw (ErrorObject "TypeError"
              "Cannot read properties of undefined (reading 'apply')"), st) /\
  (forall command' operation args' error st1,
      handler command' = Some operation ->
      operation args' st = (Rejected error, st1) ->
      newMessageProxy handler (command', args') st =
        (Normal true, emit (Reply (ErrorResponse (String_error error))) st1)).
Proof.
  intros Hnone. unfold newMessageProxy. simpl. rewrite Hnone. split; [done|].
  intros command' operation args' error st1 -> ->. done.
Qed.

(** C9, as the code has it.  For a message whose command names an
    operation of the handler: when the promise is fulfilled with plain
    data, [reply] gets [{value: ...}] with that very data; of an object
    without a method [toJSON] whose properties hold plain data,
    functions or [undefined], it gets the properties that hold plain
    data; an object with a method [toJSON] is answered by what the
    method returns; [{a: 1, b: [2, 3]}] is answered by
    [{value: {a: 1, b: [2, 3]}}].  When the promise rejects, [reply]
    gets [{error: String(error)}].  For an instance of [Error] that
    text holds the message of the error: it is ["Error: boom"] for [new
    Error("boom")].  For a [FetchError], which is no [Error] and has no
    [toString] of its own, it is ["[object Object]"] whatever the
    message.  The listener returns [true] in all these cases. *)
Theorem proxy_replies {Arg : Type}
    (handler : string -> option (Operation Arg)) command operation args st :
  handler command = Some operation ->
  (forall value st1,
      operation args st = (Fulfilled value, st1) ->
      plain_data value = true ->
      newMessageProxy handler (command, args) st =
        (Normal true, emit (Reply (ValueResponse value)) st1)) /\
  (forall properties st1,
      operation args st = (Fulfilled (JsObject properties), st1) ->
      toJSON_method properties = None ->
      Forall (fun kv => plain_data kv.2 = true \/ without_JSON kv.2 = true) properties ->
      newMessageProxy handler (command, args) st =
        (Normal true,
         emit (Reply (ValueResponse
                        (JsObject (filter (fun kv => plain_data kv.2 = true) properties))))
           st1)) /\
  (forall properties result st1,
      operation args st = (Fulfilled (JsObject properties), st1) ->
      toJSON_method properties = Some (Normal result) ->
      plain_data result = true ->
      newMessageProxy handler (command, args) st =
        (Normal true, emit (Reply (ValueResponse result)) st1)) /\
  (forall st1,
      operation args st =
        (Fulfilled (JsObject [("a", JsNumeric (Finite 1));
                              ("b", JsArray [JsNumeric (Finite 2); JsNumeric (Finite 3)])]),
         st1) ->
      newMessageProxy handler (command, args) st =
        (Normal true,
         emit (Reply (ValueResponse
                        (JsObject [("a", JsNumeric (Finite 1));
                                   ("b", JsArray [JsNumeric (Finite 2);
                                                  JsNumeric (Finite 3)])])))
           st1)) /\
  (forall error st1,
      operation args st = (Rejected error, st1) ->
      newMessageProxy handler (command, args) st =
        (Normal true, emit (Reply (ErrorResponse (String_error error))) st1)) /\
  (forall name text, contains text (String_error (ErrorObject name text)) = true) /\
  String_error (new_Error "boom") = "Error: boom" /\
  (forall text is_login_error,
      String_error (FetchError text is_login_error) = "[object Object]").
Proof.
  intros Hop. unfold newMessageProxy. simpl. rewrite Hop.
  split; [|split; [|split; [|split; [|split; [|split; [|split]]]]]].
  - intros value st1 -> Hplain. by rewrite plain_data_roundtrip.
  - intros properties st1 -> Hnone Hall. by rewrite object_roundtrip.
  - intros properties result st1 -> Hmethod Hplain.
    by rewrite (toJSON_roundtrip _ result).
  - by intros st1 ->.
  - by intros error st1 ->.
  - apply String_error_message.
  - done.
  - done.
Qed.

(** ** More on the fetch orchestrator *)

Lemma outcome_length cache0 now hosts :
  (length (hosts ≫= host_results cache0 now) +
   length (hosts ≫= host_errors cache0 now) +
   length (filter (fun h => thrown cache0 h = true) hosts))%nat = length hosts.
Proof.
  induction hosts as [|h hosts IH]; [done|].
  rewrite !bind_cons, !length_app. unfold host_results at 1, host_errors at 1.
  destruct (thrown cache0 h) eqn:Hthrown.
  - rewrite filter_cons_True by done. simpl. lia.
  - rewrite filter_cons_False by (by rewrite Hthrown).
    destruct (outcome cache0 now h); simpl; lia.
Qed.

Lemma thrown_spec cache0 host :
  thrown cache0 host = true <-> cache0 !! host = None /\ host ∈ Object_prototype.
Proof.
  unfold thrown, get_fetchCache, inherited.
  destruct (cache0 !! host) as [entry|]; [split; [done|by intros [? _]]|].
  case_bool_decide; split; try done. by intros [_ ?].
Qed.

Lemma start_host_cache now p host :
  fetchCache (world (start_host now p host)) = fetchCache (world p).
Proof.
  unfold start_host, get_fetchCache.
  destruct (fetchCache (world p) !! host) as [[timestamp [reviews|error]]|];
    try destruct (fresh now timestamp); try destruct (inherited host); done.
Qed.

Lemma start_cache now hosts p :
  fetchCache (world (foldl (start_host now) p hosts)) = fetchCache (world p).
Proof.
  revert p. induction hosts as [|host hosts IH]; intros p; [done|].
  simpl. by rewrite IH, start_host_cache.
Qed.

Lemma start_hosts now hosts p :
  (tasks (foldl (start_host now) p hosts)).*1 = (tasks p).*1 ++ hosts.
Proof.
  revert p. induction hosts as [|host hosts IH]; intros p; simpl.
  - by rewrite (right_id_L [] (++)).
  - assert (Hone : (tasks (start_host now p host)).*1 = (tasks p).*1 ++ [host]).
    { unfold start_host, get_fetchCache.
      destruct (fetchCache (world p) !! host) as [[timestamp [reviews|error]]|];
        try destruct (fresh now timestamp); try destruct (inherited host);
        simpl; by rewrite fmap_app. }
    by rewrite IH, Hone, <- (assoc_L (++)).
Qed.

Lemma resume_hosts p ev : (tasks (resume p ev)).*1 = (tasks p).*1.
Proof.
  destruct ev as [i t]. unfold resume.
  destruct (tasks p !! i) as [[host stage]|] eqn:Hi; [|done].
  assert (Hfst : forall stage', (<[i := (host, stage')]> (tasks p)).*1 = (tasks p).*1).
  { intros stage'. rewrite list_fmap_insert. simpl.
    apply list_insert_id. by rewrite list_lookup_fmap, Hi. }
  destruct stage as [| |account]; [done| |].
  - destruct (fetchAccount host); apply Hfst.
  - destruct (fetchReviews host account); apply Hfst.
Qed.

(** A callback writes the cache entry of its own host only. *)
Lemma resume_cache_other p ev h :
  h ∉ (tasks p).*1 ->
  fetchCache (world (resume p ev)) !! h = fetchCache (world p) !! h.
Proof.
  intros Hnotin. destruct ev as [i t]. unfold resume.
  destruct (tasks p !! i) as [[host stage]|] eqn:Hi; [|done].
  assert (Hne : host <> h).
  { intros ->. apply Hnotin, list_elem_of_fmap. exists (h, stage).
    split; [done|]. by eapply list_elem_of_lookup_2. }
  destruct stage as [| |account]; [done| |].
  - destruct (fetchAccount host); simpl; [done|by rewrite lookup_insert_ne].
  - destruct (fetchReviews host account); simpl; by rewrite lookup_insert_ne.
Qed.

Lemma resumes_cache_other schedule p h :
  h ∉ (tasks p).*1 ->
  fetchCache (world (foldl resume p schedule)) !! h = fetchCache (world p) !! h.
Proof.
  revert p. induction schedule as [|ev schedule IH]; intros p Hnotin; [done|].
  simpl. rewrite IH by (by rewrite resume_hosts). by apply resume_cache_other.
Qed.

Lemma fetchCls_cache_other hosts now schedule st h :
  h ∉ hosts ->
  fetchCache (fetchCls hosts now schedule st).2 !! h = fetchCache st !! h.
Proof.
  intros Hnotin. unfold fetchCls.
  destruct (decide (length hosts = 0%nat)); [done|].
  assert (Hrun : fetchCache (world (run_pass hosts now schedule st)) !! h =
                 fetchCache st !! h).
  { unfold run_pass. rewrite resumes_cache_other by (by rewrite start_hosts).
    by rewrite start_cache. }
  by destruct (forallb settled _).
Qed.

Lemma no_thrown_host cache0 hosts :
  Forall (fun h => h ∉ Object_prototype) hosts ->
  filter (fun h => thrown cache0 h = true) hosts = [].
Proof.
  induction 1 as [|h hosts Hname _ IH]; [done|].
  rewrite filter_cons_False; [done|].
  intros [_ Hin]%thrown_spec. by destruct Hname.
Qed.

(** X1.  When [fetchCls] returns, every host of the call is accounted
    for exactly once: the results, the errors and the hosts whose
    callback threw are together as many as the hosts.  The callback of
    a host throws when the cache has no entry for the host and the name
    of the host is that of a property of [Object.prototype]: the call
    has then made no call of the client for that host, has written no
    cache entry for it and reports no error for it.  When no host of
    the call has such a name, the results and the errors are as many as
    the hosts. *)
Theorem every_host_accounted hosts now schedule st wrapper st' :
  fetchCls hosts now schedule st = (Fulfilled wrapper, st') ->
  (length (results wrapper) + length (errors wrapper) +
   length (filter (fun h => thrown (fetchCache st) h = true) hosts))%nat = length hosts /\
  (forall h,
      thrown (fetchCache st) h = true <->
      fetchCache st !! h = None /\ h ∈ Object_prototype) /\
  (forall h,
      thrown (fetchCache st) h = true ->
      network h (trace st') = network h (trace st) /\
      fetchCache st' !! h = None /\
      forall error, (h, error) ∉ errors wrapper) /\
  (Forall (fun h => h ∉ Object_prototype) hosts ->
   (length (results wrapper) + length (errors wrapper))%nat = length hosts).
Proof.
  intros Hret.
  pose proof (fetchCls_frame hosts now schedule st) as (_ & _ & (new & Ht & Hcalls) & Hc).
  rewrite Hret in Ht, Hc. simpl in Ht, Hc.
  apply fetchCls_fulfilled in Hret as (_ & Hr & He & _).
  assert (Hcount := outcome_length (fetchCache st) now hosts).
  rewrite <- Hr, <- He in Hcount.
  split; [done|]. split; [intros h; apply thrown_spec|]. split.
  - intros h Hthrown.
    pose proof (thrown_not_refetched _ now _ Hthrown) as Hnot.
    split; [|split].
    + rewrite Ht, network_app, (network_calls_only _ _ _ _ _ Hcalls) by done.
      by rewrite (right_id_L [] (++)).
    + rewrite Hc by done. by apply thrown_spec in Hthrown as [? _].
    + intros error. rewrite He. intros (h' & Hh & _)%list_elem_of_bind.
      unfold host_errors in Hh.
      destruct (thrown (fetchCache st) h') eqn:Hthrown'; [by apply elem_of_nil in Hh|].
      destruct (outcome (fetchCache st) now h'); simpl in Hh;
        [by apply elem_of_nil in Hh|].
      apply list_elem_of_singleton in Hh as [= <- <-]. congruence.
  - intros Hnames. rewrite (no_thrown_host _ _ Hnames) in Hcount. simpl in Hcount. lia.
Qed.

(** X2.  Whatever the schedule, a call of [fetchCls] leaves the cache
    entry of every host it was not called with as it is, and it removes
    no entry: a host that had an entry has one afterwards. *)
Theorem other_hosts_untouched hosts now schedule st :
  (forall h, h ∉ hosts ->
     fetchCache (fetchCls hosts now schedule st).2 !! h = fetchCache st !! h) /\
  (forall h, is_Some (fetchCache st !! h) ->
     is_Some (fetchCache (fetchCls hosts now schedule st).2 !! h)).
Proof.
  split; [intros h; apply fetchCls_cache_other|].
  intros h Hsome. unfold fetchCls.
  destruct (decide (length hosts = 0%nat)); [done|].
  destruct (run_pass_inv (fetchCache st) now hosts schedule st eq_refl)
    as [[_ _ _ _ Hc _ _ _] _].
  assert (is_Some (fetchCache (world (run_pass hosts now schedule st)) !! h)).
  { destruct (Hc h) as [->|[_ (t & _ & ->)]]; [done|by eexists]. }
  by destruct (forallb settled _).
Qed.

(** A pass none of whose hosts is fetched: the callbacks end when they
    are called. *)
Lemma start_none_refetched now hosts p :
  (forall h, h ∈ hosts -> ~ refetched (fetchCache (world p)) now h) ->
  foldl (start_host now) p hosts =
  {| world := world p;
     pass_results := pass_results p ++ (hosts ≫= host_results (fetchCache (world p)) now);
     pass_errors := pass_errors p ++ (hosts ≫= host_errors (fetchCache (world p)) now);
     tasks := tasks p ++ ((fun h => (h, Done)) <$> hosts) |}.
Proof.
  revert p. induction hosts as [|host hosts IH]; intros p Hall.
  - simpl. rewrite !(right_id_L [] (++)). by destruct p.
  - simpl.
    assert (Hstep : start_host now p host =
      {| world := world p;
         pass_results := pass_results p ++ host_results (fetchCache (world p)) now host;
         pass_errors := pass_errors p ++ host_errors (fetchCache (world p)) now host;
         tasks := tasks p ++ [(host, Done)] |}).
    { assert (Hnot : ~ refetched (fetchCache (world p)) now host)
        by (apply Hall, elem_of_cons; by left).
      unfold start_host, host_results, host_errors, outcome.
      destruct (get_fetchCache_cases now (fetchCache (world p)) host)
        as [(timestamp & cached & Hhost & Hget & Hthrown & Hre)|
            [(Hhost & Hget & Hthrown & Hre)|(Hhost & Hget & Hthrown & Hre)]];
        rewrite Hget, Hthrown.
      - destruct (fresh now timestamp) eqn:Hfresh; [|by destruct Hnot].
        rewrite Hre. destruct cached; simpl; by rewrite ?(right_id_L [] (++)).
      - by rewrite !(right_id_L [] (++)).
      - by destruct Hnot. }
    rewrite Hstep, IH; simpl.
    + by rewrite ?bind_cons, <- !(assoc_L (++)).
    + intros h Hin. apply Hall, elem_of_cons. by right.
Qed.

Lemma resume_settled p ev : forallb settled (tasks p) = true -> resume p ev = p.
Proof.
  intros Hall. destruct ev as [i t]. unfold resume.
  destruct (tasks p !! i) as [[host stage]|] eqn:Hi; [|done].
  rewrite forallb_forall in Hall.
  specialize (Hall (host, stage)). unfold settled in Hall. simpl in Hall.
  destruct stage; [done|..];
    discriminate Hall; by eapply list_elem_of_In, list_elem_of_lookup_2.
Qed.

Lemma resumes_settled schedule p :
  forallb settled (tasks p) = true -> foldl resume p schedule = p.
Proof.
  intros Hall. induction schedule as [|ev schedule IH]; [done|].
  simpl. by rewrite resume_settled.
Qed.

Lemma settled_done (hosts : list string) :
  forallb settled ((fun h => (h, Done)) <$> hosts) = true.
Proof. by induction hosts. Qed.

Lemma fetchCls_none_refetched hosts now schedule st :
  hosts <> [] ->
  (forall h, h ∈ hosts -> ~ refetched (fetchCache st) now h) ->
  fetchCls hosts now schedule st =
  (Fulfilled
     {| results := hosts ≫= host_results (fetchCache st) now;
        errors := hosts ≫= host_errors (fetchCache st) now |},
   st).
Proof.
  intros Hne Hall. unfold fetchCls.
  destruct (decide (length hosts = 0%nat)) as [H0|_]; [by destruct hosts|].
  unfold run_pass. rewrite start_none_refetched by done. simpl.
  rewrite resumes_settled; simpl; [|apply settled_done].
  by rewrite settled_done.
Qed.

(** The cache entry of a host of the call whose callback did not throw,
    once the call has returned, holds the outcome of that host in the
    call. *)
Lemma fetchCls_cached_outcome hosts now schedule st wrapper st' h :
  fetchCls hosts now schedule st = (Fulfilled wrapper, st') ->
  h ∈ hosts ->
  thrown (fetchCache st) h = false ->
  exists timestamp,
    fetchCache st' !! h = Some (timestamp, outcome (fetchCache st) now h).
Proof.
  intros Hret Hin Hthrown.
  pose proof (fetchCls_frame hosts now schedule st) as (_ & _ & _ & Hsame).
  rewrite Hret in Hsame. simpl in Hsame.
  apply fetchCls_fulfilled in Hret as (_ & _ & _ & _ & Hc).
  unfold outcome.
  destruct (reusable (fetchCache st) now h) as [cached|] eqn:Hre; simpl.
  - rewrite Hsame by (apply reusable_not_refetched; by rewrite Hre).
    unfold reusable in Hre.
    destruct (fetchCache st !! h) as [[timestamp c]|]; [|done].
    destruct (fresh now timestamp); [|done]. injection Hre as ->. by eexists.
  - destruct (Hc h Hin) as (t & _ & Ht); [done|]. by eexists.
Qed.

(** The cache entry of a host whose callback threw is still missing. *)
Lemma fetchCls_thrown hosts now schedule st h :
  thrown (fetchCache st) h = true ->
  thrown (fetchCache (fetchCls hosts now schedule st).2) h = true /\
  fetchCache (fetchCls hosts now schedule st).2 !! h = fetchCache st !! h.
Proof.
  intros Hthrown.
  pose proof (fetchCls_frame hosts now schedule st) as (_ & _ & _ & Hsame).
  specialize (Hsame h (thrown_not_refetched _ now _ Hthrown)). simpl in Hsame.
  split; [|done]. apply thrown_spec. rewrite Hsame. by apply thrown_spec.
Qed.

(** X3.  When every host of the call has a cache entry recorded less
    than the cache duration before [now], [fetchCls] returns without
    waiting for anything, whatever the schedule, even the empty one: the
    results and the errors are the cached ones, in the order of the
    hosts, and the state is left as it is, so the client is not
    called. *)
Theorem all_fresh_pass_returns_at_once hosts now schedule st :
  hosts <> [] ->
  (forall h, h ∈ hosts ->
     exists timestamp cached,
       fetchCache st !! h = Some (timestamp, cached) /\
       now - timestamp < REVIEW_CACHE_DURATION_IN_MILLISECONDS config) ->
  fetchCls hosts now schedule st =
  (Fulfilled
     {| results := hosts ≫= (fun h => reviews_of (outcome (fetchCache st) now h));
        errors := hosts ≫= (fun h => error_of h (outcome (fetchCache st) now h)) |},
   st) /\
  (forall h timestamp cached,
      h ∈ hosts -> fetchCache st !! h = Some (timestamp, cached) ->
      outcome (fetchCache st) now h = cached).
Proof.
  intros Hne Hall. split.
  - rewrite fetchCls_none_refetched; [|done|].
    + assert (Hown : Forall (fun h => thrown (fetchCache st) h = false) hosts).
      { apply Forall_forall. intros h Hin.
        destruct (Hall h Hin) as (timestamp & cached & Hentry & _).
        by eapply own_entry_not_thrown. }
      rewrite host_results_filter, host_errors_filter.
      by rewrite (filter_all _ hosts Hown).
    + intros h Hin. destruct (Hall h Hin) as (timestamp & cached & Hentry & Hnew).
      apply reusable_not_refetched. exists cached. by eapply fresh_reusable.
  - intros h timestamp cached Hin Hentry.
    destruct (Hall h Hin) as (timestamp' & cached' & Hentry' & Hnew).
    unfold outcome. erewrite fresh_reusable by done. simpl. congruence.
Qed.

(** X4.  A call of [fetchCls] that follows a call that returned, for
    the same hosts, at a time [now2] less than the cache duration after
    the time stamps the cache holds for them, returns at once, whatever
    its schedule: it makes no call of the client and changes nothing,
    and it returns the results and the errors of the first call, up to
    their order. *)
Theorem second_pass_served_from_cache hosts now schedule now2 schedule2 st wrapper st1 :
  fetchCls hosts now schedule st = (Fulfilled wrapper, st1) ->
  (forall h timestamp cached,
      h ∈ hosts -> fetchCache st1 !! h = Some (timestamp, cached) ->
      now2 - timestamp < REVIEW_CACHE_DURATION_IN_MILLISECONDS config) ->
  exists wrapper2,
    fetchCls hosts now2 schedule2 st1 = (Fulfilled wrapper2, st1) /\
    results wrapper2 ≡ₚ results wrapper /\
    errors wrapper2 ≡ₚ errors wrapper.
Proof.
  intros Hret Hnew.
  assert (Hsame : forall h, h ∈ hosts ->
            ~ refetched (fetchCache st1) now2 h /\
            host_results (fetchCache st1) now2 h = host_results (fetchCache st) now h /\
            host_errors (fetchCache st1) now2 h = host_errors (fetchCache st) now h).
  { intros h Hin. unfold host_results, host_errors.
    destruct (thrown (fetchCache st) h) eqn:Hthrown.
    - destruct (fetchCls_thrown hosts now schedule st h Hthrown) as [Hthrown1 _].
      rewrite Hret in Hthrown1. simpl in Hthrown1. rewrite Hthrown1.
      split; [by apply thrown_not_refetched|done].
    - destruct (fetchCls_cached_outcome _ _ _ _ _ _ h Hret Hin Hthrown)
        as [timestamp Hentry].
      assert (Hre : reusable (fetchCache st1) now2 h = Some (outcome (fetchCache st) now h)).
      { eapply fresh_reusable; [done|]. by eapply Hnew. }
      rewrite (own_entry_not_thrown _ _ _ Hentry).
      split; [apply reusable_not_refetched; by rewrite Hre|].
      unfold outcome at 1 3. by rewrite Hre. }
  pose proof Hret as (Hne & Hr & He & _)%fetchCls_fulfilled.
  eexists. split; [|split].
  - apply fetchCls_none_refetched; [done|]. intros h Hin. by apply Hsame.
  - simpl. rewrite Hr.
    rewrite (Forall_bind_ext _ (host_results (fetchCache st) now) hosts); [done|].
    apply Forall_forall. intros h Hin. by apply Hsame.
  - simpl. rewrite He.
    rewrite (Forall_bind_ext _ (host_errors (fetchCache st) now) hosts); [done|].
    apply Forall_forall. intros h Hin. by apply Hsame.
Qed.

(** X5.  What a call of [fetchCls] returns does not depend on the order
    in which the hosts answer: two runs from the same state, under two
    schedules, that both return, have the same results, the same errors
    and the same calls of the client, up to their order, and leave the
    same outcomes in the cache; only the time stamps may differ. *)
Theorem result_independent_of_schedule hosts now schedule1 schedule2 st
    wrapper1 st1 wrapper2 st2 :
  fetchCls hosts now schedule1 st = (Fulfilled wrapper1, st1) ->
  fetchCls hosts now schedule2 st = (Fulfilled wrapper2, st2) ->
  results wrapper1 ≡ₚ results wrapper2 /\
  errors wrapper1 ≡ₚ errors wrapper2 /\
  (exists new1 new2,
      trace st1 = trace st ++ new1 /\ trace st2 = trace st ++ new2 /\ new1 ≡ₚ new2) /\
  (forall h, snd <$> fetchCache st1 !! h = snd <$> fetchCache st2 !! h).
Proof.
  intros Hret1 Hret2.
  assert (Hcache : forall h,
            snd <$> fetchCache st1 !! h = snd <$> fetchCache st2 !! h).
  { intros h. destruct (decide (h ∈ hosts)) as [Hin|Hnotin].
    - destruct (thrown (fetchCache st) h) eqn:Hthrown.
      + destruct (fetchCls_thrown hosts now schedule1 st h Hthrown) as [_ H1].
        destruct (fetchCls_thrown hosts now schedule2 st h Hthrown) as [_ H2].
        rewrite Hret1 in H1. rewrite Hret2 in H2. simpl in H1, H2. by rewrite H1, H2.
      + destruct (fetchCls_cached_outcome _ _ _ _ _ _ h Hret1 Hin Hthrown) as [t1 ->].
        by destruct (fetchCls_cached_outcome _ _ _ _ _ _ h Hret2 Hin Hthrown) as [t2 ->].
    - pose proof (fetchCls_cache_other hosts now schedule1 st h Hnotin) as H1.
      pose proof (fetchCls_cache_other hosts now schedule2 st h Hnotin) as H2.
      rewrite Hret1 in H1. rewrite Hret2 in H2. simpl in H1, H2. by rewrite H1, H2. }
  apply fetchCls_fulfilled in Hret1 as (_ & Hr1 & He1 & (new1 & Ht1 & Hn1) & _).
  apply fetchCls_fulfilled in Hret2 as (_ & Hr2 & He2 & (new2 & Ht2 & Hn2) & _).
  split; [by rewrite Hr1, Hr2|]. split; [by rewrite He1, He2|]. split; [|done].
  exists new1, new2. split; [done|]. split; [done|]. by rewrite Hn1, Hn2.
Qed.

(** ** More on the badge *)

Lemma visit_thrown categories error ordering :
  foldl (visit categories) (Throw error) ordering = Throw error.
Proof. by induction ordering. Qed.

Lemma visit_present_match categories ordering :
  (forall label, label ∈ ordering -> BADGE_DATA messages label <> Undefined) ->
  foldl (visit categories) (Normal None) ordering =
  Normal (first_match (present_match categories) ordering).
Proof.
  induction ordering as [|label ordering IH]; intros Hconf; [done|].
  simpl. unfold present_match at 1.
  assert (Hl : BADGE_DATA messages label <> Undefined)
    by (apply Hconf, elem_of_cons; by left).
  assert (IH' : foldl (visit categories) (Normal None) ordering =
                Normal (first_match (present_match categories) ordering)).
  { apply IH. intros l Hin. apply Hconf, elem_of_cons. by right. }
  destruct (categories !! label) as [items|]; [|done].
  destruct (BADGE_DATA messages label) as [| |data]; [done|done|].
  apply visit_found.
Qed.

Lemma visit_passed_over categories before acc :
  Forall (passed_over categories) before ->
  foldl (visit categories) (Normal None) (before ++ acc) =
  foldl (visit categories) (Normal None) acc.
Proof.
  induction 1 as [|label before Hlabel _ IH]; [done|].
  simpl. destruct Hlabel as [->|Hnull]; [done|].
  destruct (categories !! label); [|done]. by rewrite Hnull.
Qed.

(** The loop of [update] ends with no badge, with the badge of a
    category, or with an exception. *)
Lemma visit_category_badge categories ordering badge :
  foldl (visit categories) (Normal None) ordering = Normal (Some badge) ->
  exists data count, badge = category_badge data count.
Proof.
  induction ordering as [|label ordering IH]; [done|]. simpl.
  destruct (categories !! label) as [items|]; [|done].
  destruct (BADGE_DATA messages label) as [| |data]; [|done|].
  - by rewrite visit_thrown.
  - rewrite visit_found. intros [= <-]. by eexists _, _.
Qed.

(** X6.  For a wrapper without errors, when every label of the ordering
    has an entry in [messages.BADGE_DATA], the badge is that of the
    first label of the ordering that is a key of the category map and
    has a template; [update] does not look at the length of the list: a
    first such label whose list is empty gives a badge with the text
    ["0"]. *)
Theorem badge_tests_presence_only wrapper :
  errors wrapper = [] ->
  Messages_wf ->
  updateData wrapper =
    Normal (default (DEFAULT_BADGE_DATA messages)
              (first_match (present_match (getCategoryMap (results wrapper)))
                 (SECTION_ORDERING messages))) /\
  (forall label rest data,
      SECTION_ORDERING messages = label :: rest ->
      getCategoryMap (results wrapper) !! label = Some [] ->
      BADGE_DATA messages label = Object data ->
      updateData wrapper =
        Normal {| Browser.text := Some "0";
                  Browser.color := Some (template_color data);
                  Browser.title := Some (formatTitle data 0);
                  Browser.icon := Some (template_icon data) |}).
Proof.
  intros Herr Hconf.
  assert (Hd : updateData wrapper =
    Normal (default (DEFAULT_BADGE_DATA messages)
              (first_match (present_match (getCategoryMap (results wrapper)))
                 (SECTION_ORDERING messages)))).
  { unfold updateData. rewrite Herr, visit_present_match by done.
    by destruct (first_match _ _). }
  split; [done|]. intros label rest data Hord Hempty Hdata.
  rewrite Hd, Hord. simpl. unfold present_match. by rewrite Hempty, Hdata.
Qed.

(** X7.  For a wrapper without errors, when the first label of the
    ordering that the loop does not pass over (the labels before it are
    no keys of the category map, or have [null] in
    [messages.BADGE_DATA]) is a key of the category map without a
    property in [messages.BADGE_DATA], [update] throws a [TypeError]:
    it has cleared and created the alarm, and it does not reach
    [browser.updateBadge]. *)
Theorem badge_without_template_throws wrapper st before label after :
  errors wrapper = [] ->
  SECTION_ORDERING messages = before ++ label :: after ->
  Forall (passed_over (getCategoryMap (results wrapper))) before ->
  breaks_badge (getCategoryMap (results wrapper)) label ->
  update wrapper st =
    (Throw (ErrorObject "TypeError"
              "Cannot read properties of undefined (reading 'icon')"),
     alarms_create "auto-refresh" (REFRESH_DELAY_IN_MINUTES config)
       (alarms_clear "auto-refresh" st)) /\
  trace (update wrapper st).2 =
    trace st ++ [AlarmsClear "auto-refresh";
                 AlarmsCreate "auto-refresh" (REFRESH_DELAY_IN_MINUTES config)].
Proof.
  intros Herr Hord Hbefore [[items Hitems] Hundef].
  assert (Hd : updateData wrapper =
    Throw (ErrorObject "TypeError"
             "Cannot read properties of undefined (reading 'icon')")).
  { unfold updateData. rewrite Herr, Hord, visit_passed_over by done.
    simpl. rewrite Hitems, Hundef. by rewrite visit_thrown. }
  unfold update. rewrite Hd. simpl. split; [done|].
  by rewrite <- !(assoc_L (++)).
Qed.

(** X8.  The badge that [update] hands to [browser.updateBadge] is the
    default badge or a badge with all four properties, for which
    [updateBadge] sets the icon, the text, the title and the background
    color, in this order. *)
Theorem badge_is_default_or_complete wrapper data :
  updateData wrapper = Normal data ->
  data = DEFAULT_BADGE_DATA messages \/
  exists icon text title color,
    data = {| Browser.text := Some text; Browser.color := Some color;
              Browser.title := Some title; Browser.icon := Some icon |} /\
    Browser.updateBadge data =
      [Browser.setIcon icon; Browser.setBadgeText text; Browser.setTitle title;
       Browser.setBadgeBackgroundColor color].
Proof.
  unfold updateData. destruct (errors wrapper) as [|first rest].
  - destruct (foldl _ _ _) as [[badge|]|error] eqn:Hloop; [| |done].
    + intros [= <-]. right.
      apply visit_category_badge in Hloop as (template & count & ->).
      by eexists _, _, _, _.
    + intros [= <-]. by left.
  - intros [= <-]. right. by eexists _, _, _, _.
Qed.

(** ** More on the refresh *)

(** The alarms after [fetchAndUpdate]: as before, or with the alarm of
    the worker created anew. *)
Lemma fetchAndUpdate_alarms hosts now schedule st :
  alarms (fetchAndUpdate hosts now schedule st).2 = alarms st \/
  ((exists wrapper st1, fetchCls hosts now schedule st = (Fulfilled wrapper, st1)) /\
   alarms (fetchAndUpdate hosts now schedule st).2 =
     <["auto-refresh" := REFRESH_DELAY_IN_MINUTES config]>
       (delete "auto-refresh" (alarms st))).
Proof.
  pose proof (fetchCls_frame hosts now schedule st) as (Hsame & _).
  destruct (fetchCls hosts now schedule st) as [[wrapper|error|] st1] eqn:Hret.
  - right. split; [by eauto|].
    destruct (fetchAndUpdate_pass _ _ _ _ _ _ Hret) as (_ & -> & _).
    simpl in Hsame. by rewrite Hsame.
  - left. rewrite fetchAndUpdate_no_pass by (rewrite Hret; congruence).
    by rewrite Hret.
  - left. rewrite fetchAndUpdate_no_pass by (rewrite Hret; congruence).
    by rewrite Hret.
Qed.

Lemma fetchAndUpdate_keeps_armed hosts now schedule st :
  alarms st !! "auto-refresh" = Some (REFRESH_DELAY_IN_MINUTES config) ->
  alarms (fetchAndUpdate hosts now schedule st).2 !! "auto-refresh" =
    Some (REFRESH_DELAY_IN_MINUTES config).
Proof.
  intros Harmed.
  destruct (fetchAndUpdate_alarms hosts now schedule st) as [->|[_ ->]]; [done|].
  apply lookup_insert_eq.
Qed.

Lemma onAlarm_alarms now schedule st :
  alarms (onAlarm now schedule st).2 = alarms st \/
  exists hosts,
    alarms (onAlarm now schedule st).2 =
    alarms (fetchAndUpdate hosts now schedule st).2.
Proof.
  unfold onAlarm. destruct (fetchAllowedInstances (options st)) as [instances|error];
    [|by left].
  destruct (decide _); [|by left]. right. exists (map host instances).
  by destruct (fetchAndUpdate _ _ _ _) as [[wrapper|error|] st1].
Qed.

Lemma onAlarm_keeps_armed now schedule st :
  alarms st !! "auto-refresh" = Some (REFRESH_DELAY_IN_MINUTES config) ->
  alarms (onAlarm now schedule st).2 !! "auto-refresh" =
    Some (REFRESH_DELAY_IN_MINUTES config).
Proof.
  intros Harmed. destruct (onAlarm_alarms now schedule st) as [->|[hosts ->]]; [done|].
  by apply fetchAndUpdate_keeps_armed.
Qed.

(** X9.  When the promise of [fetchAndUpdate] is fulfilled, it is with
    the wrapper that [fetchCls] returned, and the trace has grown by
    the calls of the client, then the clearing and the creation of the
    alarm, then one badge update, then one call of
    [notifications.notify] with the results and the errors of that
    wrapper, in this order and nothing else. *)
Theorem fulfilled_refresh_has_updated hosts now schedule st wrapper st' :
  fetchAndUpdate hosts now schedule st = (Fulfilled wrapper, st') ->
  (exists st1, fetchCls hosts now schedule st = (Fulfilled wrapper, st1)) /\
  exists new data,
    updateData wrapper = Normal data /\
    new ≡ₚ hosts ≫= calls (fetchCache st) now /\
    trace st' =
      trace st ++ new ++
      [AlarmsClear "auto-refresh";
       AlarmsCreate "auto-refresh" (REFRESH_DELAY_IN_MINUTES config);
       UpdateBadge data; Notify (results wrapper) (errors wrapper)].
Proof.
  intros Hret.
  destruct (fetchCls hosts now schedule st) as [[w|error|] st1] eqn:Hpass;
    [|by rewrite fetchAndUpdate_no_pass, Hpass in Hret by (rewrite Hpass; congruence)..].
  destruct (fetchAndUpdate_pass _ _ _ _ _ _ Hpass) as (Ht & _).
  rewrite Hret in Ht. simpl in Ht.
  unfold fetchAndUpdate, update in Hret. rewrite Hpass in Hret.
  unfold after_rearming in Ht.
  destruct (updateData w) as [data|error] eqn:Hdata; [|done]. simpl in Hret.
  destruct (notify (results w) (errors w)); [done|]. injection Hret as <- _.
  split; [by eexists|].
  apply fetchCls_fulfilled in Hpass as (_ & _ & _ & (new & Ht1 & Hn) & _).
  exists new, data. split; [done|]. split; [done|].
  rewrite Ht, Ht1. by rewrite <- !(assoc_L (++)).
Qed.

(** X10.  When the promise of [fetchAndUpdate] called with at least one
    host rejects, the pass had returned and the alarm of the worker has
    been created anew all the same: the error is that of [update] or of
    [notifications.notify], and notifications are not sent when
    [update] threw. *)
Theorem rejected_refresh_has_rearmed hosts now schedule st error st' :
  hosts <> [] ->
  fetchAndUpdate hosts now schedule st = (Rejected error, st') ->
  alarms st' !! "auto-refresh" = Some (REFRESH_DELAY_IN_MINUTES config) /\
  exists wrapper st1,
    fetchCls hosts now schedule st = (Fulfilled wrapper, st1) /\
    ((updateData wrapper = Throw error /\
      trace st' =
        trace st1 ++ [AlarmsClear "auto-refresh";
                      AlarmsCreate "auto-refresh" (REFRESH_DELAY_IN_MINUTES config)]) \/
     (notify (results wrapper) (errors wrapper) = Some error /\
      exists data,
        updateData wrapper = Normal data /\
        trace st' =
          trace st1 ++ [AlarmsClear "auto-refresh";
                        AlarmsCreate "auto-refresh" (REFRESH_DELAY_IN_MINUTES config);
                        UpdateBadge data; Notify (results wrapper) (errors wrapper)])).
Proof.
  intros Hne Hret.
  destruct (fetchCls hosts now schedule st) as [[w|e|] st1] eqn:Hpass.
  - destruct (fetchAndUpdate_pass _ _ _ _ _ _ Hpass) as (Ht & Ha & _).
    rewrite Hret in Ht, Ha. simpl in Ht, Ha. split; [rewrite Ha; apply lookup_insert_eq|].
    exists w, st1. split; [done|].
    unfold fetchAndUpdate, update in Hret. rewrite Hpass in Hret.
    unfold after_rearming in Ht.
    destruct (updateData w) as [data|e] eqn:Hdata; simpl in Hret.
    + right. destruct (notify (results w) (errors w)) as [e|]; [|done].
      injection Hret as <- _. split; [done|]. by exists data.
    + left. by injection Hret as <- _.
  - exfalso. unfold fetchCls in Hpass.
    destruct (decide (length hosts = 0%nat)); [by destruct hosts|].
    by destruct (forallb settled _).
  - by rewrite fetchAndUpdate_no_pass, Hpass in Hret by (rewrite Hpass; congruence).
Qed.

(** X11.  The promise of [onAlarm] never rejects.  When
    [fetchAllowedInstances] fails, the error is logged to the console
    and nothing else happens; when [fetchAndUpdate] rejects, its error
    is logged to the console. *)
Theorem onAlarm_never_rejects now schedule st :
  (forall error st', onAlarm now schedule st <> (Rejected error, st')) /\
  (forall error,
      fetchAllowedInstances (options st) = inr error ->
      onAlarm now schedule st = (Fulfilled (), emit (ConsoleError error) st)) /\
  (forall instances error st1,
      fetchAllowedInstances (options st) = inl instances ->
      instances <> [] ->
      fetchAndUpdate (map host instances) now schedule st = (Rejected error, st1) ->
      onAlarm now schedule st = (Fulfilled (), emit (ConsoleError error) st1)).
Proof.
  unfold onAlarm. split; [|split].
  - intros error st'.
    destruct (fetchAllowedInstances (options st)) as [instances|e]; [|done].
    destruct (decide _); [|done].
    by destruct (fetchAndUpdate _ _ _ _) as [[wrapper|e|] st1].
  - by intros error ->.
  - intros instances error st1 -> Hne ->.
    destruct (decide _) as [|Hzero]; [done|].
    destruct Hzero. destruct instances; [done|simpl; lia].
Qed.

(** X12.  The alarm ['auto-refresh'] fires while some instance is
    allowed, under a fair schedule: the pass is made, and the alarm is
    created anew with the delay, so that the polling goes on; no other
    alarm is armed. *)
Theorem alarm_with_hosts_keeps_polling now schedule st instances :
  own_alarms st ->
  is_Some (alarms st !! "auto-refresh") ->
  fetchAllowedInstances (options st) = inl instances ->
  instances <> [] ->
  fair (length instances) schedule = true ->
  alarms (alarm_fires "auto-refresh" now schedule st) =
    {[ "auto-refresh" := REFRESH_DELAY_IN_MINUTES config ]} /\
  exists new rest,
    new ≡ₚ map host instances ≫= calls (fetchCache st) now /\
    trace (alarm_fires "auto-refresh" now schedule st) =
      trace st ++ new ++
      [AlarmsClear "auto-refresh";
       AlarmsCreate "auto-refresh" (REFRESH_DELAY_IN_MINUTES config)] ++ rest.
Proof.
  intros Hown [delay Harmed] Hinst Hne Hfair.
  unfold alarm_fires, onAlarm_listener. rewrite Harmed, decide_True by done.
  set (fired := {| fetchCache := fetchCache st;
                   alarms := delete "auto-refresh" (alarms st);
                   options := options st; trace := trace st |}).
  assert (Hown' : own_alarms fired).
  { intros name [d Hd]. simpl in Hd.
    destruct (decide (name = "auto-refresh")) as [->|Hname]; [done|].
    rewrite lookup_delete_ne in Hd by done. apply Hown. by rewrite Hd. }
  assert (Hhosts : map host instances <> []) by (by destruct instances).
  assert (Hfair' : fair (length (map host instances)) schedule = true)
    by (by rewrite length_map).
  destruct (fetchAndUpdate_fair _ now schedule fired Hhosts Hfair' Hown')
    as [(new & wrapper & Ht & Hn) Ha].
  unfold onAlarm. change (options fired) with (options st). rewrite Hinst.
  destruct (decide _) as [|Hzero];
    [|destruct Hzero; destruct instances; [done|simpl; lia]].
  destruct (fetchAndUpdate _ _ _ _) as [[w|e|] st1]; simpl in *.
  - split; [done|]. by exists new, (after_rearming wrapper).
  - split; [done|]. exists new, (after_rearming wrapper ++ [ConsoleError e]).
    split; [done|]. rewrite Ht. by rewrite <- !(assoc_L (++)).
  - split; [done|]. by exists new, (after_rearming wrapper).
Qed.

(** X13.  After the listener of [onInstalled] the alarm
    ['auto-refresh'] is armed with the delay, and after the listener of
    [onStartup] it is armed, with the delay when it was not armed
    before: whatever the allowed instances, the answers of the hosts
    and the schedule. *)
Theorem worker_start_arms_the_alarm now schedule st :
  alarms (onInstalled_listener now schedule st) !! "auto-refresh" =
    Some (REFRESH_DELAY_IN_MINUTES config) /\
  is_Some (alarms (onStartup_listener now schedule st) !! "auto-refresh") /\
  (alarms st !! "auto-refresh" = None ->
   alarms (onStartup_listener now schedule st) !! "auto-refresh" =
     Some (REFRESH_DELAY_IN_MINUTES config)).
Proof.
  split; [|split].
  - unfold onInstalled_listener. apply onAlarm_keeps_armed. simpl.
    apply lookup_insert_eq.
  - unfold onStartup_listener.
    destruct (alarms st !! "auto-refresh") as [delay|] eqn:Harmed.
    + destruct (onAlarm_alarms now schedule st) as [->|[hosts ->]]; [by rewrite Harmed|].
      destruct (fetchAndUpdate_alarms hosts now schedule st) as [->|[_ ->]];
        [by rewrite Harmed|]. rewrite lookup_insert_eq. by eexists.
    + rewrite onAlarm_keeps_armed; [by eexists|]. simpl. apply lookup_insert_eq.
  - intros Hnone. unfold onStartup_listener. rewrite Hnone.
    apply onAlarm_keeps_armed. simpl. apply lookup_insert_eq.
Qed.

(** ** More on the message proxy *)

Lemma without_JSON_roundtrip value :
  without_JSON value = true -> exists error, JSON_roundtrip value = Throw error.
Proof. destruct value; try done; by eexists. Qed.

(** X14.  For a message whose command names an operation of the
    handler, the listener returns [true] and calls [reply] at most
    once, after the effects of the operation.  It does not call it at
    all while the promise is pending, nor when the promise is fulfilled
    with [undefined] or with a function: [JSON.parse] throws on the
    [undefined] that [JSON.stringify] returns, and the sender gets no
    answer. *)
Theorem proxy_replies_at_most_once {Arg : Type}
    (handler : string -> option (Operation Arg)) command operation args st :
  handler command = Some operation ->
  (newMessageProxy handler (command, args) st).1 = Normal true /\
  ((newMessageProxy handler (command, args) st).2 = (operation args st).2 \/
   exists response,
     (newMessageProxy handler (command, args) st).2 =
     emit (Reply response) (operation args st).2) /\
  (forall value st1,
      operation args st = (Fulfilled value, st1) ->
      without_JSON value = true ->
      newMessageProxy handler (command, args) st = (Normal true, st1)) /\
  (forall st1,
      operation args st = (Pending, st1) ->
      newMessageProxy handler (command, args) st = (Normal true, st1)).
Proof.
  intros Hop. unfold newMessageProxy. simpl. rewrite Hop.
  split; [|split; [|split]].
  - destruct (operation args st) as [[value|error|] st1]; [|done..].
    by destruct (JSON_roundtrip value).
  - destruct (operation args st) as [[value|error|] st1]; simpl.
    + destruct (JSON_roundtrip value); simpl; [right; by eexists|by left].
    + right. by eexists.
    + by left.
  - intros value st1 -> Hw. by destruct (without_JSON_roundtrip value Hw) as [e ->].
  - by intros st1 ->.
Qed.

(** X15.  A message [['getSearchResults', hosts, ...]] is answered
    according to [fetchAndUpdate(hosts)], further arguments being
    ignored: when its promise is fulfilled and the wrapper is plain
    data, by [{value: ...}] with the wrapper, after the effects of the
    refresh; when it rejects, by [{error: String(error)}]; and not at
    all while it is pending. *)
Theorem popup_request_relays_refresh now schedule st hosts rest :
  (forall wrapper st1,
      fetchAndUpdate hosts now schedule st = (Fulfilled wrapper, st1) ->
      plain_data (toValue (results wrapper) (errors wrapper)) = true ->
      newMessageProxy (RequestProxy now schedule) ("getSearchResults", hosts :: rest) st =
        (Normal true,
         emit (Reply (ValueResponse (toValue (results wrapper) (errors wrapper)))) st1)) /\
  (forall error st1,
      fetchAndUpdate hosts now schedule st = (Rejected error, st1) ->
      newMessageProxy (RequestProxy now schedule) ("getSearchResults", hosts :: rest) st =
        (Normal true, emit (Reply (ErrorResponse (String_error error))) st1)) /\
  (forall st1,
      fetchAndUpdate hosts now schedule st = (Pending, st1) ->
      newMessageProxy (RequestProxy now schedule) ("getSearchResults", hosts :: rest) st =
        (Normal true, st1)).
Proof.
  unfold newMessageProxy, RequestProxy, getSearchResults. simpl.
  split; [|split].
  - intros wrapper st1 -> Hplain. by rewrite plain_data_roundtrip.
  - by intros error st1 ->.
  - by intros st1 ->.
Qed.

End Worker.

End Badge.

(** ** Properties of browser.js *)
Module BrowserFacts.

Import Browser.

(** X16.  A [FetchError] that has gone through
    [JSON.parse(JSON.stringify(...))], as the message proxy does with
    what it replies, is given back by [FetchError.wrap] with its message
    and its login flag.  [wrap] throws for [undefined] and [null], and
    for nothing else. *)
Theorem FetchError_wrap_roundtrip (message : string) (is_login_error : bool) :
  (exists json,
      JSON_roundtrip (FetchError_value message is_login_error) = Normal json /\
      wrap json = Normal {| wrapped_message := JsString message;
                            wrapped_is_login_error := JsBoolean is_login_error |}) /\
  (forall json,
      (exists error, wrap json = Throw error) <-> json = JsUndefined \/ json = JsNull).
Proof.
  split; [by eexists|]. intros json. split.
  - intros [error Hthrow]. destruct json; try done; by eauto.
  - intros [->| ->]; by eexists.
Qed.

Section Fetch.

Variable LOGIN_PROMPT : string.
Variable fetch : string -> list (string * string) -> FetchAnswer.

(** X17.  The promise of [fetchUrl] is fulfilled only with the body of
    a response whose status is from 200 to 299, and it rejects only
    with a [FetchError], never with the error of [fetch] or of
    [response.text()] itself.  For a response with another status the
    error is ['HTTP '] and the status, a login error with the login
    prompt appended exactly when the status is from 400 to 403; when
    [fetch] fails with an [Error] it is the login error ['Unknown
    error.'] with the login prompt. *)
Theorem fetchUrl_rejects_with_FetchError path params headers :
  match fetchUrl LOGIN_PROMPT fetch path params headers with
  | Fulfilled content =>
      exists status,
        fetch (request_url path params) (default [] headers) =
          Response status (inl content) /\
        200 <= status <= 299
  | Rejected (FetchError _ _) => True
  | Rejected (ErrorObject _ _) => False
  | Pending => False
  end /\
  (forall status body,
      fetch (request_url path params) (default [] headers) = Response status body ->
      ~ 200 <= status <= 299 ->
      fetchUrl LOGIN_PROMPT fetch path params headers =
        Rejected
          (if bool_decide (400 <= status <= 403)
           then FetchError ("HTTP " +:+ pretty status +:+ LOGIN_PROMPT) true
           else FetchError ("HTTP " +:+ pretty status) false)) /\
  (forall name message,
      fetch (request_url path params) (default [] headers) =
        NetworkFailure (ErrorObject name message) ->
      fetchUrl LOGIN_PROMPT fetch path params headers =
        Rejected (FetchError ("Unknown error." +:+ LOGIN_PROMPT) true)).
Proof.
  unfold fetchUrl, fetchUrl_try, ok. split; [|split].
  - destruct (fetch _ _) as [[name message|message login]|status body]; [done..|].
    case_bool_decide as Hok.
    + destruct body as [content|[name message|message login]]; [|done..].
      by exists status.
    + by destruct (bool_decide (400 <= status) && bool_decide (status <= 403)).
  - intros status body -> Hnot. rewrite bool_decide_false by done.
    destruct (decide (400 <= status <= 403)) as [Hlogin|Hother].
    + rewrite (bool_decide_true (400 <= status <= 403)) by done.
      rewrite !bool_decide_true by lia. done.
    + rewrite (bool_decide_false (400 <= status <= 403)) by done.
      destruct (decide (400 <= status)).
      * rewrite bool_decide_true, (bool_decide_false (status <= 403)) by lia. done.
      * rewrite (bool_decide_false (400 <= status)) by done. done.
  - by intros name message ->.
Qed.

End Fetch.

Lemma append_assoc (s1 s2 s3 : string) : (s1 +:+ s2) +:+ s3 = s1 +:+ s2 +:+ s3.
Proof.
  induction s1 as [|c s1 IH]; [done|].
  change (String c ((s1 +:+ s2) +:+ s3) = String c (s1 +:+ s2 +:+ s3)).
  by rewrite IH.
Qed.

Lemma append_empty (s : string) : s +:+ "" = s.
Proof.
  induction s as [|c s IH]; [done|].
  change (String c (s +:+ "") = String c s). by rewrite IH.
Qed.

Lemma occurrences_append c s1 s2 :
  occurrences c (s1 +:+ s2) = (occurrences c s1 + occurrences c s2)%nat.
Proof.
  induction s1 as [|c' s1 IH]; [done|].
  change (occurrences c (String c' s1 +:+ s2))
    with ((if decide (c' = c) then 1 else 0) + occurrences c (s1 +:+ s2))%nat.
  rewrite IH. simpl. lia.
Qed.

Lemma foldl_add_param params path separator :
  (foldl add_param (path, separator) params).1 = path +:+ query separator params.
Proof.
  revert path separator. induction params as [|param params IH]; intros path separator.
  - simpl. by rewrite append_empty.
  - simpl. unfold add_param at 2. simpl. rewrite IH.
    by rewrite !append_assoc.
Qed.

(** A character that [encodeURIComponent] never writes. *)
Definition escaped (c : Ascii.ascii) : Prop :=
  forall byte, occurrences c (encode_byte byte) = 0%nat.

Lemma escaped_encodeURIComponent c s :
  escaped c -> occurrences c (encodeURIComponent s) = 0%nat.
Proof.
  intros Hc. induction s as [|byte s IH]; [done|].
  simpl. by rewrite occurrences_append, Hc, IH.
Qed.

Lemma escaped_separators : escaped "=" /\ escaped "&" /\ escaped "?".
Proof.
  repeat split; intros [[] [] [] [] [] [] [] []]; vm_compute; reflexivity.
Qed.

Lemma occurrences_query c separator params :
  escaped c ->
  occurrences c (query separator params) =
  match params with
  | [] => 0%nat
  | _ :: rest =>
      (occurrences c separator + occurrences c "=" +
       length rest * (occurrences c "&" + occurrences c "="))%nat
  end.
Proof.
  intros Hc. revert separator.
  induction params as [|param params IH]; intros separator; [done|].
  simpl query. rewrite !occurrences_append, !escaped_encodeURIComponent by done.
  rewrite IH. destruct params as [|param' params]; simpl length; lia.
Qed.

(** X18.  Without parameters [fetchUrl] requests the path as it is
    given.  With parameters it appends ['?'] and the parameters, each
    as key, ['='] and value, with ['&'] between them, the keys and the
    values being encoded: whatever characters they hold, the text that
    is appended has one ['='] for each parameter, one ['&'] between two
    parameters, and one ['?'] when there is a parameter. *)
Theorem request_url_query path :
  request_url path None = path /\
  request_url path (Some []) = path /\
  forall params,
    request_url path (Some params) = path +:+ query "?" params /\
    occurrences "=" (query "?" params) = length params /\
    occurrences "&" (query "?" params) = (length params - 1)%nat /\
    occurrences "?" (query "?" params) = (length params `min` 1)%nat.
Proof.
  split; [done|]. split; [done|]. intros params.
  destruct escaped_separators as (Heq & Hamp & Hq).
  split; [apply foldl_add_param|].
  rewrite !occurrences_query by done.
  destruct params as [|param params]; [done|]. simpl. lia.
Qed.

Section OpenUrl.

Variable in_popup : bool.
Variable with_usp : string -> Completion string.

Lemma filter_shows_none urlString reuse_if_possible tabs :
  reuse_if_possible = false \/ Forall (fun tab => tab_url tab <> Some urlString) tabs ->
  filter (shows urlString reuse_if_possible) tabs = [].
Proof.
  intros Hnone. induction tabs as [|tab tabs IH]; [done|].
  rewrite filter_cons_False.
  - apply IH. destruct Hnone as [|Hall]; [by left|right]. by inversion Hall.
  - intros [Hurl Hreuse]. destruct Hnone as [->|Hall]; [done|].
    by inversion Hall.
Qed.

Lemma filter_shows_some urlString tabs :
  filter (shows urlString true) tabs = [] ->
  Forall (fun tab => tab_url tab <> Some urlString) tabs.
Proof.
  induction tabs as [|tab tabs IH]; [done|]. rewrite filter_cons.
  destruct (decide (shows urlString true tab)) as [|Hnot]; [done|].
  intros Hrest. constructor; [|by apply IH].
  intros Hurl. by apply Hnot.
Qed.

(** X19.  [openUrl], for a URL that [new URL] accepts, makes at most
    one call.  It creates a tab, for the URL with the parameter [usp],
    exactly when it is not asked to reuse a tab or no tab of the window
    shows the URL. *)
Theorem openUrl_creates_unless_shown tabs urlString reuse_if_possible url :
  with_usp urlString = Normal url ->
  (openUrl in_popup with_usp tabs urlString reuse_if_possible = Normal [tabs_create url]
   <-> reuse_if_possible = false \/
       Forall (fun tab => tab_url tab <> Some urlString) tabs) /\
  (exists calls,
      openUrl in_popup with_usp tabs urlString reuse_if_possible = Normal calls /\
      (length calls <= 1)%nat).
Proof.
  intros Husp. unfold openUrl. split.
  - split.
    + destruct (filter (shows urlString reuse_if_possible) tabs) as [|first rest] eqn:Hf.
      * intros _. destruct reuse_if_possible; [right|by left].
        by apply filter_shows_some.
      * destruct (filter _ (first :: rest)); [done|]. by destruct in_popup.
    + intros Hnone. by rewrite filter_shows_none, Husp.
  - destruct (filter (shows urlString reuse_if_possible) tabs) as [|first rest].
    + rewrite Husp. eexists. split; [done|]. simpl. lia.
    + destruct (filter _ (first :: rest)); eexists; (split; [done|]);
        [|destruct in_popup]; simpl; lia.
Qed.

(** X20.  [openUrl], asked to reuse a tab when some tab of the window
    shows the URL, creates no tab.  When one of the tabs that show the
    URL is active it touches no tab (in the popup, it closes the
    popup); otherwise it activates the first tab of the window that
    shows the URL. *)
Theorem openUrl_reuses_first_tab before tab after urlString :
  tab_url tab = Some urlString ->
  Forall (fun other => tab_url other <> Some urlString) before ->
  (Exists (fun other => tab_url other = Some urlString /\ tab_active other = true)
     (tab :: after) ->
   openUrl in_popup with_usp (before ++ tab :: after) urlString true =
     Normal (if in_popup then [window_close] else [])) /\
  (Forall (fun other => tab_url other = Some urlString -> tab_active other = false)
     (tab :: after) ->
   openUrl in_popup with_usp (before ++ tab :: after) urlString true =
     Normal [tabs_update_active (tab_id tab)]).
Proof.
  intros Hurl Hbefore. unfold openUrl.
  rewrite filter_app, filter_shows_none by (by right). simpl.
  rewrite filter_cons_True by done.
  set (candidates := filter (shows urlString true) after).
  assert (Hcand : forall other,
            other ∈ tab :: candidates <->
            other ∈ tab :: after /\ tab_url other = Some urlString).
  { intros other. rewrite !elem_of_cons. unfold candidates.
    rewrite list_elem_of_filter. unfold shows. split.
    - intros [->|[[? _] ?]]; by auto.
    - intros [[->|?] ?]; by auto. }
  remember (filter (fun other => tab_active other = true) (tab :: candidates))
    as active eqn:Hactive.
  assert (Hin : forall other,
            other ∈ active <->
            tab_active other = true /\ other ∈ tab :: candidates).
  { intros other. by rewrite Hactive, list_elem_of_filter. }
  clear Hactive. split.
  - intros (other & Hother & Hshows & Hact)%Exists_exists.
    destruct active as [|first rest]; [|done].
    exfalso. eapply elem_of_nil, Hin. split; [done|]. by apply Hcand.
  - intros Hinactive. destruct active as [|first rest]; [done|].
    exfalso. destruct (proj1 (Hin first)) as [Hact Hfirst]; [by left|].
    apply Hcand in Hfirst as [Hfirst Hshows].
    rewrite Forall_forall in Hinactive.
    by rewrite (Hinactive first Hfirst Hshows) in Hact.
Qed.

End OpenUrl.

Section Storage.

Context {V : Type}.
Variable DEFAULT_OPTIONS : gmap string V.

Lemma lookup_options_with_defaults (options : gmap string V) key :
  options_with_defaults DEFAULT_OPTIONS options !! key =
  (fun value => default value (options !! key)) <$> DEFAULT_OPTIONS !! key.
Proof.
  unfold options_with_defaults. rewrite map_lookup_imap.
  destruct (DEFAULT_OPTIONS !! key) as [value|]; simpl; [|done].
  by destruct (options !! key).
Qed.

Lemma lookup_storage_get (defaults storage : gmap string V) key :
  storage_get defaults storage !! key =
  match defaults !! key with
  | Some value => Some (default value (storage !! key))
  | None => None
  end.
Proof.
  unfold storage_get. rewrite lookup_union, map_lookup_filter.
  destruct (defaults !! key) as [value|] eqn:Hdefault.
  - destruct (storage !! key) as [stored|]; simpl; [|done].
    rewrite option_guard_True by (simpl; by rewrite Hdefault). done.
  - destruct (storage !! key) as [stored|]; simpl; [|done].
    rewrite option_guard_False; [done|]. simpl. rewrite Hdefault. by intros [? ?].
Qed.

(** X21.  What [saveOptions] resolves to is what [loadOptions] gives
    afterwards, whatever was stored before; and saving the options that
    were loaded resolves to these same options. *)
Theorem saved_options_are_loaded (options sync saved sync' : gmap string V) lastError :
  saveOptions DEFAULT_OPTIONS options sync lastError = SaveResolved saved sync' ->
  loadOptions DEFAULT_OPTIONS sync' = saved /\
  options_with_defaults DEFAULT_OPTIONS (loadOptions DEFAULT_OPTIONS sync') = saved.
Proof.
  unfold saveOptions. destruct lastError; [done|]. intros [= <- <-].
  assert (Hload : loadOptions DEFAULT_OPTIONS
                    (storage_set (options_with_defaults DEFAULT_OPTIONS options) sync) =
                  options_with_defaults DEFAULT_OPTIONS options).
  { apply map_eq. intros key. unfold loadOptions, storage_set.
    rewrite lookup_storage_get, lookup_union, !lookup_options_with_defaults.
    destruct (DEFAULT_OPTIONS !! key) as [value|]; simpl; [|done].
    by destruct (options !! key), (sync !! key). }
  split; [done|]. rewrite Hload. apply map_eq. intros key.
  rewrite !lookup_options_with_defaults.
  destruct (DEFAULT_OPTIONS !! key) as [value|]; simpl; [|done].
  by destruct (options !! key).
Qed.

(** X22.  The options that [saveOptions] stores have the keys of
    [config.DEFAULT_OPTIONS] and no other: for each of them the value
    that was given, or the default value when none was given; a key
    that is given without being a default is dropped, and what is
    stored under such a key stays as it was. *)
Theorem saved_options_have_default_keys (options sync saved sync' : gmap string V)
    lastError :
  saveOptions DEFAULT_OPTIONS options sync lastError = SaveResolved saved sync' ->
  lastError = None /\
  dom saved = dom DEFAULT_OPTIONS /\
  (forall key value,
      DEFAULT_OPTIONS !! key = Some value ->
      saved !! key = Some (default value (options !! key)) /\
      sync' !! key = saved !! key) /\
  (forall key,
      DEFAULT_OPTIONS !! key = None ->
      saved !! key = None /\ sync' !! key = sync !! key).
Proof.
  unfold saveOptions. destruct lastError; [done|]. intros [= <- <-].
  split; [done|]. split; [|split].
  - apply set_eq. intros key. rewrite !elem_of_dom, lookup_options_with_defaults.
    by rewrite fmap_is_Some.
  - intros key value Hkey. unfold storage_set.
    rewrite lookup_union, lookup_options_with_defaults, Hkey. simpl.
    split; [done|]. by destruct (sync !! key).
  - intros key Hkey. unfold storage_set.
    rewrite lookup_union, lookup_options_with_defaults, Hkey. simpl.
    split; [done|]. by destruct (sync !! key).
Qed.

End Storage.

(** X23.  [getLocalStorage] gives the value that [setLocalStorage] has
    stored under a key other than ['__proto__'], whatever the default;
    setting a key does not change what it gives for another key;
    [setLocalStorage] stores nothing when the value is [undefined] or
    the key is ['__proto__'].  When nothing is stored under the key,
    [getLocalStorage] gives the default, unless the key names a
    property of [Object.prototype]: it then gives that inherited member
    and not the default. *)
Theorem local_storage_roundtrip {A} key value val (defaultVal : A)
    (local : gmap string Json) :
  (key <> "__proto__" ->
   getLocalStorage key defaultVal (setLocalStorage key (Some value) local) =
     stored_value value) /\
  (forall other,
      other <> key ->
      getLocalStorage other defaultVal (setLocalStorage key val local) =
      getLocalStorage other defaultVal local) /\
  setLocalStorage key None local = local /\
  setLocalStorage "__proto__" val local = local /\
  (local !! key = None -> key ∉ Object_prototype ->
   getLocalStorage key defaultVal local = default_value defaultVal) /\
  (local !! key = None -> key ∈ Object_prototype ->
   getLocalStorage key defaultVal local = inherited_member key).
Proof.
  unfold getLocalStorage, setLocalStorage, inherited.
  split; [|split; [|split; [|split; [|split]]]].
  - intros Hkey. rewrite decide_False by done. by rewrite lookup_insert_eq.
  - intros other Hne. destruct (decide (key = "__proto__")); [done|].
    destruct val as [stored|]; [|done]. by rewrite lookup_insert_ne.
  - by destruct (decide (key = "__proto__")).
  - done.
  - intros -> Hkey. by rewrite bool_decide_false.
  - intros -> Hkey. by rewrite bool_decide_true.
Qed.

(** X24.  The promise of [requestPermissions] rejects exactly when
    notifications are wanted, are not yet permitted, and the request is
    not granted; the error is then the same whether the request failed
    or was refused.  When it is fulfilled and notifications are wanted,
    they are permitted.  The first call is always that of
    [chrome.permissions.getAll]; when what is wanted is what is
    permitted already it is the only call, so that nothing is requested
    or removed.  The origins play no part, and no other permission
    changes. *)
Theorem requestPermissions_outcome origins notifications granted answer removed :
  ((exists error,
       (requestPermissions origins notifications granted answer removed).1.1 =
       Rejected error) <->
   (notifications = true /\ ("notifications" ∉ granted) /\
    answer <> request_answered true)) /\
  (forall error,
      (requestPermissions origins notifications granted answer removed).1.1 =
        Rejected error ->
      error = new_Error "notifications permission not granted") /\
  ((requestPermissions origins notifications granted answer removed).1.1 = Fulfilled () ->
   notifications = true ->
   "notifications" ∈ (requestPermissions origins notifications granted answer removed).1.2) /\
  (exists rest,
      (requestPermissions origins notifications granted answer removed).2 =
      permissions_getAll :: rest) /\
  ((notifications = true <-> "notifications" ∈ granted) ->
   requestPermissions origins notifications granted answer removed =
     (Fulfilled (), granted, [permissions_getAll])) /\
  (forall origins',
      requestPermissions origins' notifications granted answer removed =
      requestPermissions origins notifications granted answer removed) /\
  (forall permission,
      permission <> "notifications" ->
      permission ∈ (requestPermissions origins notifications granted answer removed).1.2
      <-> permission ∈ granted).
Proof.
  unfold requestPermissions.
  destruct notifications, (decide ("notifications" ∈ granted)) as [Hin|Hnotin];
    rewrite ?(bool_decide_true _ Hin), ?(bool_decide_false _ Hnotin); simpl;
    [|destruct answer as [lastError|[|]]|destruct removed|]; simpl;
    (split; [split; [intros [error Herror]|intros (Hwanted & Hnot & Hanswer)]|
             split; [intros error Herror|
                     split; [intros Hfulfilled Hasked|
                             split; [by eexists|
                                     split; [intros [Hwanted Hpermitted]|
                                             split; [intros _|intros permission Hne]]]]]]);
    try done; try (by eexists); try (by injection Herror as <-); try set_solver.
  all: try (by specialize (Hwanted eq_refl)).
  all: try (by specialize (Hpermitted Hin)).
Qed.

End BrowserFacts.

(** ** A scenario

    Two hosts, of which the first cannot be reached; reviews are lists
    of change numbers.  The constants stand for those of [config.js]
    and [messages.js]. *)
Module Scenario.

Definition config : Config :=
  {| NO_HOST_ALLOWED := "No host allowed";
     REVIEW_CACHE_DURATION_IN_MILLISECONDS := 60000;
     REFRESH_DELAY_IN_MINUTES := 5 |}.

Definition attention_badge : BadgeTemplate :=
  {| template_icon := [("24", "img/ic_assignment_ind_black_24dp_1x.png")];
     template_color := "orange";
     formatTitle := fun count => pretty count +:+ " CL(s) require your attention" |}.

Definition submit_badge : BadgeTemplate :=
  {| template_icon := [("24", "img/ic_assignment_turned_in_black_24dp_1x.png")];
     template_color := "green";
     formatTitle := fun count => pretty count +:+ " CL(s) ready to submit" |}.

Definition messages : Messages :=
  {| SECTION_ORDERING := ["needsAttention"; "outgoing"; "readyToSubmit"];
     BADGE_DATA := fun label =>
       if decide (label = "needsAttention") then Object attention_badge
       else if decide (label = "outgoing") then Null
       else if decide (label = "readyToSubmit") then Object submit_badge
       else Undefined;
     DEFAULT_BADGE_DATA :=
       {| Browser.text := Some ""; Browser.color := None;
          Browser.title := Some "No CL requires your attention";
          Browser.icon := Some [("24", "img/ic_assignment_black_24dp_1x.png")] |} |}.

Definition down : string := "down.example.com".
Definition up : string := "up.example.com".
Definition unreachable : JsError := FetchError "HTTP 500" false.

Definition fetchAccount (host : string) : string + JsError :=
  if decide (host = down) then inr unreachable else inl "self".

Definition fetchReviews (host account : string) : list Z + JsError :=
  inl [101; 102].

Definition getCategoryMap (results : list (list Z)) : gmap string (list Z) :=
  match concat results with
  | [] => ∅
  | cl :: cls => {[ "needsAttention" := [cl; cl]; "readyToSubmit" := [cl] ]}
  end.

Definition fetchAllowedInstances (options : list Instance) : list Instance + JsError :=
  inl options.

Definition notify (results : list (list Z)) (errors : list (string * JsError))
    : option JsError := None.

Definition toValue (results : list (list Z)) (errors : list (string * JsError)) : JsValue :=
  JsObject
    [("results",
      JsArray ((fun r => JsArray ((fun cl => JsNumeric (Finite cl)) <$> r)) <$> results));
     ("errors", JsArray ((fun e => JsObject [("host", JsString e.1)]) <$> errors))].

Abbreviation State := (@Badge.State (list Z) (list Instance)).

(** The worker just started, without an allowed instance. *)
Definition started : State :=
  {| Badge.fetchCache := ∅; Badge.alarms := ∅; Badge.options := [];
     Badge.trace := [] |}.

(** The worker with its alarm armed and a cache entry for [up]
    recorded at time 1000. *)
Definition cached : State :=
  {| Badge.fetchCache := {[ up := (1000, Badge.CachedReviews [7]) ]};
     Badge.alarms := {[ "auto-refresh" := 5 ]}; Badge.options := [];
     Badge.trace := [] |}.

(** Both callbacks are resumed twice, the second one first. *)
Definition schedule : list (nat * Z) :=
  [(1%nat, 2010); (0%nat, 2020); (1%nat, 2030); (0%nat, 2040)].

(** The wrapper of a pass in which [down] failed and [up] answered. *)
Definition mixed : @Badge.Wrapper (list Z) :=
  {| Badge.results := [[101; 102]]; Badge.errors := [(down, unreachable)] |}.

(** The wrapper of a pass in which [up] answered. *)
Definition answered : @Badge.Wrapper (list Z) :=
  {| Badge.results := [[101; 102]]; Badge.errors := [] |}.

(** A handler with one operation, which resolves to its first argument
    and rejects without one. *)
Definition echo : string -> option (@Badge.Operation (list Z) (list Instance) JsValue) :=
  fun command =>
    if decide (command = "echo") then
      Some (fun args st =>
              match args with
              | value :: _ => (Fulfilled value, st)
              | [] => (Rejected (new_Error "boom"), st)
              end)
    else None.

(** A handler with one operation, which rejects with a [FetchError]
    whose message is ["boom"]. *)
Definition refuse : string -> option (@Badge.Operation (list Z) (list Instance) JsValue) :=
  fun command =>
    if decide (command = "refuse") then
      Some (fun args st => (Rejected (FetchError "boom" false), st))
    else None.

(** An object with a method [toJSON]. *)
Definition dated : JsValue :=
  JsObject [("a", JsNumeric (Finite 1));
            ("toJSON", JsFunction "toJSON" (Normal (JsString "2019")))].

(** Another order of the answers: [down] fails before [up] has
    answered. *)
Definition schedule2 : list (nat * Z) :=
  [(0%nat, 2001); (1%nat, 2002); (1%nat, 2003)].

(** Messages without a template for any category. *)
Definition incomplete_messages : Messages :=
  {| SECTION_ORDERING := ["needsAttention"];
     BADGE_DATA := fun label => Undefined;
     DEFAULT_BADGE_DATA := DEFAULT_BADGE_DATA messages |}.

(** The worker with its alarm armed and one allowed instance. *)
Definition polling : State :=
  {| Badge.fetchCache := ∅;
     Badge.alarms := {[ "auto-refresh" := 5 ]};
     Badge.options := [{| instance_name := "Up"; host := up |}];
     Badge.trace := [] |}.

(** A window with three tabs, two of which show the same change. *)
Definition change : string := "https://up.example.com/c/101".

Definition window : list Browser.Tab :=
  [{| Browser.tab_id := 1; Browser.tab_url := Some "https://example.com/";
      Browser.tab_active := true |};
   {| Browser.tab_id := 2; Browser.tab_url := Some change;
      Browser.tab_active := false |};
   {| Browser.tab_id := 3; Browser.tab_url := Some change;
      Browser.tab_active := false |}].

Definition with_usp (url : string) : Completion string :=
  Normal (url +:+ "?usp=gerrit-monitor").

(** Default options, and options as the options page gives them. *)
Definition DEFAULT_OPTIONS : gmap string JsValue :=
  {[ "instances" := JsArray []; "onlyAttentionSet" := JsBoolean false ]}.

Definition given_options : gmap string JsValue :=
  {[ "onlyAttentionSet" := JsBoolean true; "unknown" := JsNull ]}.

#[local] Abbreviation fetchCls :=
  (@Badge.fetchCls _ _ (list Instance) config fetchAccount fetchReviews).
#[local] Abbreviation getSearchResults :=
  (@Badge.getSearchResults _ _ _ (list Instance) config messages fetchAccount
     fetchReviews getCategoryMap notify).
#[local] Abbreviation RequestProxy :=
  (@Badge.RequestProxy _ _ _ (list Instance) config messages fetchAccount
     fetchReviews getCategoryMap notify toValue).
#[local] Abbreviation alarm_fires :=
  (@Badge.alarm_fires _ _ _ (list Instance) config messages fetchAccount
     fetchReviews getCategoryMap fetchAllowedInstances notify).
#[local] Abbreviation updateData := (@Badge.updateData (list Z) Z messages getCategoryMap).

Lemma fresh_entry_reused_witness :
  up ∈ [down; up] /\
  Badge.fetchCache cached !! up = Some (1000, Badge.CachedReviews [7]) /\
  2000 - 1000 < REVIEW_CACHE_DURATION_IN_MILLISECONDS config /\
  Badge.fetchCache (fetchCls [down; up] 2000 schedule cached).2 !! up =
    Some (1000, Badge.CachedReviews [7]).
Proof.
  assert (H1 : up ∈ [down; up]) by (apply elem_of_cons; right; apply elem_of_cons; by left).
  assert (H2 : Badge.fetchCache cached !! up = Some (1000, Badge.CachedReviews [7]))
    by reflexivity.
  assert (H3 : 2000 - 1000 < REVIEW_CACHE_DURATION_IN_MILLISECONDS config) by (simpl; lia).
  split; [exact H1|]. split; [exact H2|]. split; [exact H3|].
  exact (proj1 (proj2 (Badge.fresh_entry_reused config fetchAccount fetchReviews
                         [down; up] 2000 schedule cached up 1000 _ H1 H2 H3))).
Defined.


Lemma partial_failure_isolated_witness :
  Badge.refetched config (Badge.fetchCache started) 2000 down /\
  Badge.refetched config (Badge.fetchCache started) 2000 up /\
  Badge.fetched fetchAccount fetchReviews down = Badge.CachedError unreachable /\
  Badge.fetched fetchAccount fetchReviews up = Badge.CachedReviews [101; 102] /\
  exists wrapper st', fetchCls [down; up] 2000 schedule started = (Fulfilled wrapper, st').
Proof.
  assert (H1 : Badge.refetched config (Badge.fetchCache started) 2000 down)
    by (split; reflexivity).
  assert (H2 : Badge.refetched config (Badge.fetchCache started) 2000 up)
    by (split; reflexivity).
  assert (H3 : Badge.fetched fetchAccount fetchReviews down = Badge.CachedError unreachable)
    by reflexivity.
  assert (H4 : Badge.fetched fetchAccount fetchReviews up = Badge.CachedReviews [101; 102])
    by reflexivity.
  split; [exact H1|]. split; [exact H2|]. split; [exact H3|]. split; [exact H4|].
  exact (proj1 (Badge.partial_failure_isolated config fetchAccount fetchReviews
                  down up unreachable [101; 102] 2000 schedule started H1 H2 H3 H4)
           eq_refl).
Defined.

Lemma errors_take_precedence_witness :
  Badge.errors mixed = (down, unreachable) :: [] /\
  updateData mixed =
    Normal {| Browser.text := Some "!";
              Browser.color := Some "red";
              Browser.title := Some "Error: HTTP 500";
              Browser.icon :=
                Some [("24", "img/ic_assignment_late_black_24dp_1x.png");
                      ("48", "img/ic_assignment_late_black_24dp_2x.png")] |}.
Proof.
  split; [reflexivity|].
  exact (proj1 (Badge.errors_take_precedence config messages getCategoryMap
                  mixed (down, unreachable) [] started eq_refl)).
Defined.

Lemma category_badge_by_priority_witness :
  Badge.errors answered = [] /\
  Badge.CategoryMap_wf (getCategoryMap (Badge.results answered)) /\
  Badge.Messages_wf messages /\
  updateData answered =
    Normal {| Browser.text := Some "2";
              Browser.color := Some "orange";
              Browser.title := Some "2 CL(s) require your attention";
              Browser.icon := Some [("24", "img/ic_assignment_ind_black_24dp_1x.png")] |}.
Proof.
  assert (H1 : Badge.errors answered = []) by reflexivity.
  assert (H2 : Badge.CategoryMap_wf (getCategoryMap (Badge.results answered))).
  { intros label items. change (getCategoryMap (Badge.results answered))
      with ({[ "needsAttention" := [101; 101]; "readyToSubmit" := [101] ]}
            : gmap string (list Z)).
    intros Hl Hnil. subst items.
    destruct (decide (label = "needsAttention")) as [->|Hn1];
      [by rewrite lookup_insert_eq in Hl|].
    rewrite lookup_insert_ne in Hl by done.
    destruct (decide (label = "readyToSubmit")) as [->|Hn2];
      [by rewrite lookup_singleton_eq in Hl|].
    by rewrite lookup_singleton_ne in Hl. }
  assert (H3 : Badge.Messages_wf messages).
  { intros label Hin. simpl in Hin.
    repeat (apply elem_of_cons in Hin as [->|Hin]; [done|]).
    by apply elem_of_nil in Hin. }
  split; [exact H1|]. split; [exact H2|]. split; [exact H3|].
  exact (proj1 (proj2 (Badge.category_badge_by_priority config messages
                         getCategoryMap answered started H1 H2 H3))
           [] "needsAttention" ["outgoing"; "readyToSubmit"] [101; 101] attention_badge
           eq_refl (Forall_nil_2 _) eq_refl eq_refl).
Defined.

Lemma own_alarms_started : Badge.own_alarms started.
Proof. intros name [delay Harmed]. simpl in Harmed. by rewrite lookup_empty in Harmed. Qed.

Lemma own_alarms_cached : Badge.own_alarms cached.
Proof.
  intros name [delay Harmed]. simpl in Harmed.
  destruct (decide (name = "auto-refresh")) as [->|Hne]; [done|].
  by rewrite lookup_singleton_ne in Harmed.
Qed.

(** A refresh from the popup calls the client before it touches the
    alarm, and a refresh without hosts arms no alarm at all. *)
Lemma on_demand_refresh_fetches_first :
  Badge.trace (getSearchResults [up] 2000 [(0%nat, 2010); (0%nat, 2020)] started).2 =
    [Badge.FetchAccountCall up; Badge.FetchReviewsCall up;
     Badge.AlarmsClear "auto-refresh"; Badge.AlarmsCreate "auto-refresh" 5;
     Badge.UpdateBadge
       {| Browser.text := Some "2";
          Browser.color := Some "orange";
          Browser.title := Some "2 CL(s) require your attention";
          Browser.icon := Some [("24", "img/ic_assignment_ind_black_24dp_1x.png")] |};
     Badge.Notify [[101; 102]] []] /\
  ~ (exists rest,
        Badge.trace (getSearchResults [up] 2000 [(0%nat, 2010); (0%nat, 2020)] started).2 =
        Badge.AlarmsClear "auto-refresh" :: Badge.AlarmsCreate "auto-refresh" 5 :: rest) /\
  Badge.alarms (getSearchResults [] 2000 [] started).2 = ∅.
Proof.
  assert (Htrace :
    Badge.trace (getSearchResults [up] 2000 [(0%nat, 2010); (0%nat, 2020)] started).2 =
    [Badge.FetchAccountCall up; Badge.FetchReviewsCall up;
     Badge.AlarmsClear "auto-refresh"; Badge.AlarmsCreate "auto-refresh" 5;
     Badge.UpdateBadge
       {| Browser.text := Some "2";
          Browser.color := Some "orange";
          Browser.title := Some "2 CL(s) require your attention";
          Browser.icon := Some [("24", "img/ic_assignment_ind_black_24dp_1x.png")] |};
     Badge.Notify [[101; 102]] []]) by (vm_compute; reflexivity).
  split; [exact Htrace|]. split; [|reflexivity].
  rewrite Htrace. intros [rest Hrest]. discriminate Hrest.
Qed.

Lemma on_demand_refresh_rearms_witness :
  Badge.own_alarms started /\
  [down; up] <> [] /\
  Badge.fair (length [down; up]) schedule = true /\
  Badge.alarms (getSearchResults [down; up] 3000 schedule
                  (getSearchResults [down; up] 2000 schedule started).2).2 =
    {[ "auto-refresh" := 5 ]}.
Proof.
  assert (H2 : [down; up] <> []) by discriminate.
  assert (H3 : Badge.fair (length [down; up]) schedule = true) by reflexivity.
  split; [exact own_alarms_started|]. split; [exact H2|]. split; [exact H3|].
  exact (proj1 (proj2 (proj2 (Badge.on_demand_refresh_rearms config messages fetchAccount
                                fetchReviews getCategoryMap notify [down; up] 2000 schedule
                                3000 schedule started own_alarms_started H2 H3 H3)))).
Defined.

Lemma alarm_without_host_stops_polling_witness :
  Badge.own_alarms cached /\
  is_Some (Badge.alarms cached !! "auto-refresh") /\
  fetchAllowedInstances (Badge.options cached) = inl [] /\
  map host [] = [] /\
  Badge.trace (alarm_fires "auto-refresh" 2000 [] cached) = Badge.trace cached /\
  Badge.alarms (alarm_fires "auto-refresh" 2000 [] cached) = ∅.
Proof.
  assert (H2 : is_Some (Badge.alarms cached !! "auto-refresh")) by (by exists 5).
  assert (H3 : fetchAllowedInstances (Badge.options cached) = inl []) by reflexivity.
  assert (H4 : map host [] = []) by reflexivity.
  split; [exact own_alarms_cached|]. split; [exact H2|]. split; [exact H3|].
  split; [exact H4|].
  pose proof (Badge.alarm_without_host_stops_polling config messages fetchAccount
                fetchReviews getCategoryMap fetchAllowedInstances notify 2000 [] cached []
                own_alarms_cached H2 H3 H4) as (_ & Htrace & _ & Halarms & _).
  split; [exact Htrace|exact Halarms].
Defined.

(** A message with a command that [RequestProxy] does not have: the
    listener throws and [reply] is not called. *)
Lemma unknown_command_gets_no_reply :
  Badge.newMessageProxy (RequestProxy 2000 schedule) ("getReviews", [[up]]) started =
    (Throw (ErrorObject "TypeError"
              "Cannot read properties of undefined (reading 'apply')"), started) /\
  ~ (exists response,
        Badge.Reply response ∈
        Badge.trace (Badge.newMessageProxy (RequestProxy 2000 schedule)
                       ("getReviews", [[up]]) started).2).
Proof.
  split; [reflexivity|]. intros [response Hin].
  change (Badge.Reply response ∈ @nil (@Badge.Event (list Z))) in Hin.
  by apply elem_of_nil in Hin.
Qed.

Lemma unknown_command_throws_witness :
  RequestProxy 2000 schedule "getReviews" = None /\
  Badge.newMessageProxy (RequestProxy 2000 schedule) ("getReviews", [[up]]) started =
    (Throw (ErrorObject "TypeError"
              "Cannot read properties of undefined (reading 'apply')"), started).
Proof.
  split; [reflexivity|].
  exact (proj1 (Badge.unknown_command_throws (RequestProxy 2000 schedule)
                  "getReviews" [[up]] started eq_refl)).
Defined.

(** A handler operation that rejects with a [FetchError] whose message
    is ["boom"] is answered by [{error: "[object Object]"}], a text in
    which the message does not occur; and of an object with a method
    [toJSON] the property [a], which holds plain data, does not reach
    the sender: the answer is what the method returns. *)
Lemma rejection_message_lost :
  message (FetchError "boom" false) = "boom" /\
  Badge.newMessageProxy refuse ("refuse", []) started =
    (Normal true, Badge.emit (Badge.Reply (ErrorResponse "[object Object]")) started) /\
  contains "boom" "[object Object]" = false /\
  Badge.newMessageProxy echo ("echo", [dated]) started =
    (Normal true, Badge.emit (Badge.Reply (ValueResponse (JsString "2019"))) started).
Proof. repeat split; reflexivity. Qed.

Lemma proxy_replies_witness :
  (exists operation, echo "echo" = Some operation) /\
  Badge.newMessageProxy echo
    ("echo", [JsObject [("a", JsNumeric (Finite 1));
                        ("b", JsArray [JsNumeric (Finite 2); JsNumeric (Finite 3)])]])
    started =
    (Normal true,
     Badge.emit
       (Badge.Reply
          (ValueResponse
             (JsObject [("a", JsNumeric (Finite 1));
                        ("b", JsArray [JsNumeric (Finite 2); JsNumeric (Finite 3)])])))
       started) /\
  Badge.newMessageProxy echo ("echo", []) started =
    (Normal true, Badge.emit (Badge.Reply (ErrorResponse "Error: boom")) started) /\
  contains "boom" "Error: boom" = true.
Proof.
  split; [by eexists|]. split; [|split].
  - exact (proj1 (proj2 (proj2 (proj2
             (Badge.proxy_replies echo "echo" _
                [JsObject [("a", JsNumeric (Finite 1));
                           ("b", JsArray [JsNumeric (Finite 2); JsNumeric (Finite 3)])]]
                started eq_refl))))
             started eq_refl).
  - exact (proj1 (proj2 (proj2 (proj2 (proj2
             (Badge.proxy_replies echo "echo" _ [] started eq_refl)))))
             (new_Error "boom") started eq_refl).
  - exact (proj1 (proj2 (proj2 (proj2 (proj2 (proj2
             (Badge.proxy_replies echo "echo" _ [] started eq_refl))))))
             "Error" "boom").
Defined.

Lemma started_pass :
  fetchCls [down; up] 2000 schedule started =
  (Fulfilled mixed, (fetchCls [down; up] 2000 schedule started).2).
Proof. vm_compute. reflexivity. Qed.

(** A pass for a host named like a method of [Object.prototype] and
    for [up]: the callback of the first throws, that of [up] is resumed
    twice. *)
Lemma inherited_pass :
  fetchCls ["constructor"; up] 2000 [(1%nat, 2010); (1%nat, 2020)] started =
  (Fulfilled answered,
   (fetchCls ["constructor"; up] 2000 [(1%nat, 2010); (1%nat, 2020)] started).2).
Proof. vm_compute. reflexivity. Qed.

Lemma every_host_accounted_witness :
  fetchCls ["constructor"; up] 2000 [(1%nat, 2010); (1%nat, 2020)] started =
    (Fulfilled answered,
     (fetchCls ["constructor"; up] 2000 [(1%nat, 2010); (1%nat, 2020)] started).2) /\
  (length (Badge.results answered) + length (Badge.errors answered) +
   length (filter (fun h => Badge.thrown (Badge.fetchCache started) h = true)
             ["constructor"; up]))%nat =
    length ["constructor"; up].
Proof.
  split; [exact inherited_pass|].
  exact (proj1 (Badge.every_host_accounted config fetchAccount fetchReviews
                  ["constructor"; up] 2000 [(1%nat, 2010); (1%nat, 2020)] started
                  answered _ inherited_pass)).
Defined.

Lemma all_fresh_pass_returns_at_once_witness :
  [up] <> [] /\
  (forall h, h ∈ [up] ->
     exists timestamp entry,
       Badge.fetchCache cached !! h = Some (timestamp, entry) /\
       2000 - timestamp < REVIEW_CACHE_DURATION_IN_MILLISECONDS config) /\
  fetchCls [up] 2000 [] cached =
    (Fulfilled {| Badge.results := [[7]]; Badge.errors := [] |}, cached).
Proof.
  assert (H1 : [up] <> []) by discriminate.
  assert (H2 : forall h, h ∈ [up] ->
            exists timestamp entry,
              Badge.fetchCache cached !! h = Some (timestamp, entry) /\
              2000 - timestamp < REVIEW_CACHE_DURATION_IN_MILLISECONDS config).
  { intros h ->%list_elem_of_singleton. exists 1000, (Badge.CachedReviews [7]).
    split; [reflexivity|simpl; lia]. }
  split; [exact H1|]. split; [exact H2|].
  exact (proj1 (Badge.all_fresh_pass_returns_at_once config fetchAccount fetchReviews
                  [up] 2000 [] cached H1 H2)).
Defined.

Lemma second_pass_served_from_cache_witness :
  fetchCls [down; up] 2000 schedule started =
    (Fulfilled mixed, (fetchCls [down; up] 2000 schedule started).2) /\
  (forall h timestamp entry,
      h ∈ [down; up] ->
      Badge.fetchCache (fetchCls [down; up] 2000 schedule started).2 !! h =
        Some (timestamp, entry) ->
      3000 - timestamp < REVIEW_CACHE_DURATION_IN_MILLISECONDS config) /\
  exists wrapper2,
    fetchCls [down; up] 3000 [] (fetchCls [down; up] 2000 schedule started).2 =
      (Fulfilled wrapper2, (fetchCls [down; up] 2000 schedule started).2) /\
    Badge.results wrapper2 ≡ₚ Badge.results mixed /\
    Badge.errors wrapper2 ≡ₚ Badge.errors mixed.
Proof.
  assert (H2 : forall h timestamp entry,
            h ∈ [down; up] ->
            Badge.fetchCache (fetchCls [down; up] 2000 schedule started).2 !! h =
              Some (timestamp, entry) ->
            3000 - timestamp < REVIEW_CACHE_DURATION_IN_MILLISECONDS config).
  { intros h timestamp entry Hin Hentry.
    apply elem_of_cons in Hin as [->|Hin];
      [|apply list_elem_of_singleton in Hin as ->];
      vm_compute in Hentry; injection Hentry as <- _; simpl; lia. }
  split; [exact started_pass|]. split; [exact H2|].
  exact (Badge.second_pass_served_from_cache config fetchAccount fetchReviews
           [down; up] 2000 schedule 3000 [] started mixed _ started_pass H2).
Defined.

Lemma started_pass2 :
  fetchCls [down; up] 2000 schedule2 started =
  (Fulfilled mixed, (fetchCls [down; up] 2000 schedule2 started).2).
Proof. vm_compute. reflexivity. Qed.

Lemma result_independent_of_schedule_witness :
  fetchCls [down; up] 2000 schedule started =
    (Fulfilled mixed, (fetchCls [down; up] 2000 schedule started).2) /\
  fetchCls [down; up] 2000 schedule2 started =
    (Fulfilled mixed, (fetchCls [down; up] 2000 schedule2 started).2) /\
  forall h,
    snd <$> Badge.fetchCache (fetchCls [down; up] 2000 schedule started).2 !! h =
    snd <$> Badge.fetchCache (fetchCls [down; up] 2000 schedule2 started).2 !! h.
Proof.
  split; [exact started_pass|]. split; [exact started_pass2|].
  exact (proj2 (proj2 (proj2
           (Badge.result_independent_of_schedule config fetchAccount fetchReviews
              [down; up] 2000 schedule schedule2 started mixed _ mixed _
              started_pass started_pass2)))).
Defined.

Lemma messages_wf : Badge.Messages_wf messages.
Proof.
  intros label Hin. simpl in Hin.
  repeat (apply elem_of_cons in Hin as [->|Hin]; [done|]).
  by apply elem_of_nil in Hin.
Qed.

Lemma badge_tests_presence_only_witness :
  Badge.errors answered = [] /\
  Badge.Messages_wf messages /\
  updateData answered =
    Normal (default (DEFAULT_BADGE_DATA messages)
              (Badge.first_match
                 (Badge.present_match messages (getCategoryMap (Badge.results answered)))
                 (SECTION_ORDERING messages))).
Proof.
  split; [reflexivity|]. split; [exact messages_wf|].
  exact (proj1 (Badge.badge_tests_presence_only messages getCategoryMap answered
                  eq_refl messages_wf)).
Defined.

Lemma badge_without_template_throws_witness :
  Badge.errors answered = [] /\
  SECTION_ORDERING incomplete_messages = [] ++ "needsAttention" :: [] /\
  Forall (Badge.passed_over incomplete_messages (getCategoryMap (Badge.results answered)))
    [] /\
  Badge.breaks_badge incomplete_messages (getCategoryMap (Badge.results answered))
    "needsAttention" /\
  Badge.trace (Badge.update config incomplete_messages getCategoryMap answered started).2 =
    [Badge.AlarmsClear "auto-refresh"; Badge.AlarmsCreate "auto-refresh" 5].
Proof.
  assert (H3 : Forall (Badge.passed_over incomplete_messages
                         (getCategoryMap (Badge.results answered))) [])
    by constructor.
  assert (H4 : Badge.breaks_badge incomplete_messages
                 (getCategoryMap (Badge.results answered)) "needsAttention").
  { split; [|reflexivity]. exists [101; 101]. reflexivity. }
  split; [reflexivity|]. split; [reflexivity|]. split; [exact H3|]. split; [exact H4|].
  exact (proj2 (Badge.badge_without_template_throws config incomplete_messages
                  getCategoryMap answered started [] "needsAttention" []
                  eq_refl eq_refl H3 H4)).
Defined.

Lemma badge_is_default_or_complete_witness :
  updateData mixed = Normal (Badge.error_badge unreachable) /\
  (Badge.error_badge unreachable = DEFAULT_BADGE_DATA messages \/
   exists icon text title color,
     Badge.error_badge unreachable =
       {| Browser.text := Some text; Browser.color := Some color;
          Browser.title := Some title; Browser.icon := Some icon |} /\
     Browser.updateBadge (Badge.error_badge unreachable) =
       [Browser.setIcon icon; Browser.setBadgeText text; Browser.setTitle title;
        Browser.setBadgeBackgroundColor color]).
Proof.
  split; [reflexivity|].
  exact (Badge.badge_is_default_or_complete messages getCategoryMap mixed
           (Badge.error_badge unreachable) eq_refl).
Defined.

Lemma refresh_of_up :
  getSearchResults [up] 2000 [(0%nat, 2010); (0%nat, 2020)] started =
  (Fulfilled answered,
   (getSearchResults [up] 2000 [(0%nat, 2010); (0%nat, 2020)] started).2).
Proof. vm_compute. reflexivity. Qed.

Lemma fulfilled_refresh_has_updated_witness :
  getSearchResults [up] 2000 [(0%nat, 2010); (0%nat, 2020)] started =
    (Fulfilled answered,
     (getSearchResults [up] 2000 [(0%nat, 2010); (0%nat, 2020)] started).2) /\
  exists st1,
    fetchCls [up] 2000 [(0%nat, 2010); (0%nat, 2020)] started = (Fulfilled answered, st1).
Proof.
  split; [exact refresh_of_up|].
  exact (proj1 (Badge.fulfilled_refresh_has_updated config messages fetchAccount
                  fetchReviews getCategoryMap notify [up] 2000
                  [(0%nat, 2010); (0%nat, 2020)] started answered _ refresh_of_up)).
Defined.

Lemma refresh_without_template :
  @Badge.fetchAndUpdate _ _ _ (list Instance) config incomplete_messages fetchAccount
    fetchReviews getCategoryMap notify [up] 2000 [(0%nat, 2010); (0%nat, 2020)] started =
  (Rejected (ErrorObject "TypeError"
               "Cannot read properties of undefined (reading 'icon')"),
   (@Badge.fetchAndUpdate _ _ _ (list Instance) config incomplete_messages fetchAccount
      fetchReviews getCategoryMap notify [up] 2000 [(0%nat, 2010); (0%nat, 2020)]
      started).2).
Proof. vm_compute. reflexivity. Qed.

Lemma rejected_refresh_has_rearmed_witness :
  [up] <> [] /\
  @Badge.fetchAndUpdate _ _ _ (list Instance) config incomplete_messages fetchAccount
    fetchReviews getCategoryMap notify [up] 2000 [(0%nat, 2010); (0%nat, 2020)] started =
  (Rejected (ErrorObject "TypeError"
               "Cannot read properties of undefined (reading 'icon')"),
   (@Badge.fetchAndUpdate _ _ _ (list Instance) config incomplete_messages fetchAccount
      fetchReviews getCategoryMap notify [up] 2000 [(0%nat, 2010); (0%nat, 2020)]
      started).2) /\
  Badge.alarms
    (@Badge.fetchAndUpdate _ _ _ (list Instance) config incomplete_messages fetchAccount
       fetchReviews getCategoryMap notify [up] 2000 [(0%nat, 2010); (0%nat, 2020)]
       started).2 !! "auto-refresh" = Some 5.
Proof.
  assert (H1 : [up] <> []) by discriminate.
  split; [exact H1|]. split; [exact refresh_without_template|].
  exact (proj1 (Badge.rejected_refresh_has_rearmed config incomplete_messages fetchAccount
                  fetchReviews getCategoryMap notify [up] 2000
                  [(0%nat, 2010); (0%nat, 2020)] started _ _ H1
                  refresh_without_template)).
Defined.

Lemma own_alarms_polling : Badge.own_alarms polling.
Proof.
  intros name [delay Harmed]. simpl in Harmed.
  destruct (decide (name = "auto-refresh")) as [->|Hne]; [done|].
  by rewrite lookup_singleton_ne in Harmed.
Qed.

Lemma alarm_with_hosts_keeps_polling_witness :
  Badge.own_alarms polling /\
  is_Some (Badge.alarms polling !! "auto-refresh") /\
  fetchAllowedInstances (Badge.options polling) =
    inl [{| instance_name := "Up"; host := up |}] /\
  [{| instance_name := "Up"; host := up |}] <> [] /\
  Badge.fair (length [{| instance_name := "Up"; host := up |}])
    [(0%nat, 2010); (0%nat, 2020)] = true /\
  Badge.alarms (alarm_fires "auto-refresh" 2000 [(0%nat, 2010); (0%nat, 2020)] polling) =
    {[ "auto-refresh" := 5 ]}.
Proof.
  assert (H2 : is_Some (Badge.alarms polling !! "auto-refresh")) by (by exists 5).
  assert (H4 : [{| instance_name := "Up"; host := up |}] <> []) by discriminate.
  split; [exact own_alarms_polling|]. split; [exact H2|]. split; [reflexivity|].
  split; [exact H4|]. split; [reflexivity|].
  exact (proj1 (Badge.alarm_with_hosts_keeps_polling config messages fetchAccount
                  fetchReviews getCategoryMap fetchAllowedInstances notify 2000
                  [(0%nat, 2010); (0%nat, 2020)] polling _
                  own_alarms_polling H2 eq_refl H4 eq_refl)).
Defined.

Lemma proxy_replies_at_most_once_witness :
  (exists operation, echo "echo" = Some operation) /\
  Badge.newMessageProxy echo ("echo", [JsUndefined]) started = (Normal true, started).
Proof.
  split; [by eexists|].
  exact (proj1 (proj2 (proj2 (Badge.proxy_replies_at_most_once echo "echo" _
                                [JsUndefined] started eq_refl)))
           JsUndefined started eq_refl eq_refl).
Defined.

Lemma openUrl_creates_unless_shown_witness :
  with_usp change = Normal "https://up.example.com/c/101?usp=gerrit-monitor" /\
  Browser.openUrl true with_usp window change false =
    Normal [Browser.tabs_create "https://up.example.com/c/101?usp=gerrit-monitor"].
Proof.
  split; [reflexivity|].
  exact (proj2 (proj1 (BrowserFacts.openUrl_creates_unless_shown true with_usp window
                         change false _ eq_refl))
           (or_introl eq_refl)).
Defined.

Lemma openUrl_reuses_first_tab_witness :
  Browser.tab_url {| Browser.tab_id := 2; Browser.tab_url := Some change;
                     Browser.tab_active := false |} = Some change /\
  Forall (fun other => Browser.tab_url other <> Some change)
    [{| Browser.tab_id := 1; Browser.tab_url := Some "https://example.com/";
        Browser.tab_active := true |}] /\
  Browser.openUrl true with_usp window change true =
    Normal [Browser.tabs_update_active 2].
Proof.
  assert (H2 : Forall (fun other => Browser.tab_url other <> Some change)
                 [{| Browser.tab_id := 1; Browser.tab_url := Some "https://example.com/";
                     Browser.tab_active := true |}])
    by (by repeat constructor).
  split; [reflexivity|]. split; [exact H2|].
  refine (proj2 (BrowserFacts.openUrl_reuses_first_tab true with_usp
                   [{| Browser.tab_id := 1; Browser.tab_url := Some "https://example.com/";
                       Browser.tab_active := true |}]
                   {| Browser.tab_id := 2; Browser.tab_url := Some change;
                      Browser.tab_active := false |}
                   [{| Browser.tab_id := 3; Browser.tab_url := Some change;
                       Browser.tab_active := false |}]
                   change eq_refl H2) _).
  by repeat constructor.
Defined.

Lemma saved_options_are_loaded_witness :
  Browser.saveOptions DEFAULT_OPTIONS given_options ∅ None =
    Browser.SaveResolved
      (Browser.options_with_defaults DEFAULT_OPTIONS given_options)
      (Browser.storage_set (Browser.options_with_defaults DEFAULT_OPTIONS given_options) ∅) /\
  Browser.loadOptions DEFAULT_OPTIONS
    (Browser.storage_set (Browser.options_with_defaults DEFAULT_OPTIONS given_options) ∅) =
  Browser.options_with_defaults DEFAULT_OPTIONS given_options.
Proof.
  split; [reflexivity|].
  exact (proj1 (BrowserFacts.saved_options_are_loaded DEFAULT_OPTIONS given_options ∅
                  _ _ None eq_refl)).
Defined.

Lemma saved_options_have_default_keys_witness :
  Browser.saveOptions DEFAULT_OPTIONS given_options ∅ None =
    Browser.SaveResolved
      (Browser.options_with_defaults DEFAULT_OPTIONS given_options)
      (Browser.storage_set (Browser.options_with_defaults DEFAULT_OPTIONS given_options) ∅) /\
  dom (Browser.options_with_defaults DEFAULT_OPTIONS given_options) = dom DEFAULT_OPTIONS.
Proof.
  split; [reflexivity|].
  exact (proj1 (proj2 (BrowserFacts.saved_options_have_default_keys DEFAULT_OPTIONS
                         given_options ∅ _ _ None eq_refl))).
Defined.

End Scenario.
